(** * Parabola: a thread-pool batch executor around the Swiss Ephemeris

    Shallow embedding of [parabola_wrapper.cpp] (both variants found in the
    repository), [parabola_wrapper.h] (the [ParabolaThreadPool]) and
    [swevid_loader.cpp], with the properties of the specification stated
    and settled against them.

    Conventions.
    - [size_t] values that count elements of a vector are natural numbers;
      where the source relies on unsigned wrap-around (the loader's bounds
      check, the doubling of the trial thread count) the value is a [Z] or
      [N] and the reduction modulo [2^64] is written out.
    - [double] is an abstract type for the ephemeris data. A measured
      throughput is the value of the [double] of line 219, a rational
      ([Q]); the products [best_throughput * 1.05] and
      [best_throughput * 0.95] are rounded to the nearest [double], as
      the literals 1.05 and 0.95 are. A trial that the clock measures
      as 0 ms, whose throughput is not finite, is left out.
    - The external routine [swe_calc_ut] is an opaque deterministic
      function, as the specification treats it.
    - A call has an outcome: it returns, throws, never returns to its
      caller (the thread blocks for ever, or [std::terminate] ends the
      process), or has no defined behaviour (division by zero on
      [size_t]); it also leaves a trace of the calls the calling thread
      makes on the pool and on the external routine. *)

From Stdlib Require Import String Ascii.
From Stdlib Require Import List ZArith NArith QArith Qabs Lia Lqa Bool Arith Permutation.
Import ListNotations.

Set Implicit Arguments.
Close Scope Q_scope.
Open Scope nat_scope.

(** ** Outcomes and traces *)

Inductive error : Type :=
| NotInitialized        (* "Swiss Ephemeris not initialized" *)
| ResultCountMismatch   (* "Result count mismatch" *)
| EnqueueOnStopped      (* "Enqueue on stopped ThreadPool" *)
| EphemerisInitFailed   (* "Ephemeris initialization failed" *)
| ThreadCreationFailed. (* std::system_error of std::thread *)

Inductive outcome (A : Type) : Type :=
| Ok (a : A)
| Throw (e : error)
| NeverReturns   (* the thread blocks for ever, or std::terminate is called *)
| Undefined      (* size_t division by zero *)
| OutOfFuel.     (* the fuel of a loop of the model ran out *)

Arguments Ok {A} a.
Arguments Throw {A} e.
Arguments NeverReturns {A}.
Arguments Undefined {A}.
Arguments OutOfFuel {A}.

(** What the calling thread does to its collaborators. *)
Inductive event : Type :=
| EvTrial (threads : N)        (* one autotuning trial is run *)
| EvResize (threads : N)       (* ThreadPool::instance().resize(threads) *)
| EvPoolCreate (threads : N)   (* a ThreadPool is constructed *)
| EvPoolDestroy                (* ... and destroyed (workers joined) *)
| EvEnqueue (slice_len : nat)  (* a slice is submitted to the pool *)
| EvLogError                   (* log_message(LogLevel::ERROR, ...) *)
| EvSweClose.                  (* swe_close() *)

Definition M (A : Type) : Type := (list event * outcome A)%type.

Definition ret {A} (a : A) : M A := ([], Ok a).
Definition throw {A} (e : error) : M A := ([], Throw e).
Definition tell (evs : list event) : M unit := (evs, Ok tt).

Definition bind {A B} (m : M A) (k : A -> M B) : M B :=
  match m with
  | (tr, Ok a) => let '(tr', o) := k a in (tr ++ tr', o)
  | (tr, Throw e) => (tr, Throw e)
  | (tr, NeverReturns) => (tr, NeverReturns)
  | (tr, Undefined) => (tr, Undefined)
  | (tr, OutOfFuel) => (tr, OutOfFuel)
  end.

(** [try { m } catch (...) { break; }] inside a loop: [handler] is what
    the loop leaves when [m] throws. *)
Definition try_catch {A B} (m : M A) (k : A -> M B) (handler : B) : M B :=
  match m with
  | (tr, Ok a) => let '(tr', o) := k a in (tr ++ tr', o)
  | (tr, Throw _) => (tr, Ok handler)
  | (tr, NeverReturns) => (tr, NeverReturns)
  | (tr, Undefined) => (tr, Undefined)
  | (tr, OutOfFuel) => (tr, OutOfFuel)
  end.

Notation "x <- m ;; k" := (bind m (fun x => k))
  (at level 61, m at next level, right associativity).
Notation "m ;;; k" := (bind m (fun _ => k))
  (at level 61, right associativity).

Definition result_of {A} (m : M A) : outcome A := snd m.
Definition trace_of {A} (m : M A) : list event := fst m.

(** ** The platform

    What the program asks of the machine it runs on:
    [std::thread::hardware_concurrency()] (which may be 0), the number of
    threads that can be created before [std::thread] throws, and the
    throughput a benchmark run measures with a given number of threads. *)
Record Platform : Type :=
  { hardware_concurrency : N;
    thread_limit : N;
    throughput : N -> Q }.

Definition size_max : N := (2 ^ 64)%N.

(** [unsigned int], the type of [hardware_concurrency()]. *)
Definition uint_max : N := (2 ^ 32)%N.

(** ** Arithmetic on [double]

    The finite values of a [double] are rationals; an operation gives
    the exact result rounded to the nearest value with a 53-bit
    significand, ties to the even one (exponents below -1022 are the
    subnormal range). The throughputs of this program are far below the
    overflow threshold. *)
Definition round_half_even (q : Q) : Z :=
  let n := Qnum q in
  let d := Z.pos (Qden q) in
  let f := (n / d)%Z in
  let r2 := (2 * (n mod d))%Z in
  if (r2 <? d)%Z then f
  else if (d <? r2)%Z then (f + 1)%Z
       else if Z.even f then f else (f + 1)%Z.

(** The exponent [e] with [2^e <= q < 2^(e+1)], for [q > 0]. *)
Definition binade (q : Q) : Z :=
  let e := (Z.log2 (Qnum q) - Z.log2 (Z.pos (Qden q)))%Z in
  if Qle_bool (2 ^ e) q then e else (e - 1)%Z.

Definition round_to_double (q : Q) : Q :=
  if (Qnum q =? 0)%Z then 0%Q
  else
    let a := Qabs q in
    let e := Z.max (binade a) (-1022) in
    let m := round_half_even (a * 2 ^ (52 - e)) in
    let r := (inject_Z m * 2 ^ (e - 52))%Q in
    if (Qnum q <? 0)%Z then (- r)%Q else r.

(** [x * y] on two [double]s. *)
Definition double_mul (x y : Q) : Q := round_to_double (x * y).

(** The literals [1.05], [0.95] and [1000.0]. *)
Definition d1_05 : Q := round_to_double (105 # 100).
Definition d0_95 : Q := round_to_double (95 # 100).

(** Line 219: [(size / (double)ms) * 1000.0], for [ms] other than 0. *)
Definition throughput_of (size : N) (ms : Z) : Q :=
  double_mul (round_to_double (inject_Z (Z.of_N size) / inject_Z ms)) 1000.

(** ** Data model *)

Section Ephemeris.

(** [double] and the external routine. [swe_calc_ut jd ipl iflag] gives
    the return code, the six coordinates and the error text. *)
Variable double : Type.
Variable SEFLG_SPEED : Z.
Variable swe_calc_ut : double -> Z -> Z -> Z * list double * string.

Record PlanetRequest : Type := { jd : double; ipl : Z }.

Record PlanetResult : Type :=
  { res_ipl : Z; xx : list double; errcode : Z; serr : string }.

(** The singleton pool as [compute_batch] sees it: the number of worker
    threads ([ThreadPool::size]) and the stop flag. *)
Record PoolView : Type := { workers : nat; stop : bool }.

Record System : Type := { is_initialized : bool; pool : PoolView }.

(** The body of the loop over one slice, lines 266-279. *)
Definition calc_one (req : PlanetRequest) : PlanetResult :=
  let '(ret, coords, msg) := swe_calc_ut (jd req) (ipl req) SEFLG_SPEED in
  {| res_ipl := ipl req; xx := coords; errcode := ret; serr := msg |}.

(** The task submitted for one slice, lines 262-281. *)
Definition slice_task (slice : list PlanetRequest) : list PlanetResult :=
  map calc_one slice.

(** ** Slicing *)

(** [std::vector<PlanetRequest> slice(begin + i, begin + end)]. *)
Definition subvector {A} (v : list A) (i e : nat) : list A :=
  firstn (e - i) (skipn i v).

(** [for (i = i0; i < size; i += step) { end = min(size, i + step); ... }]
    collecting the slices in the order they are built. *)
Fixpoint slice_loop {A} (fuel : nat) (v : list A) (step i : nat)
  : option (list (list A)) :=
  match fuel with
  | 0 => if i <? length v then None else Some []
  | S f =>
      if i <? length v then
        let e := Nat.min (length v) (i + step) in
        match slice_loop f v step (i + step) with
        | Some rest => Some (subvector v i e :: rest)
        | None => None
        end
      else Some []
  end.

(** Lines 252-256. *)
Definition min_batch_size : nat := 10.
Definition max_batch_size : nat := 100.

Definition target_batch_size (batch_len pool_size : nat) : nat :=
  Nat.min max_batch_size (Nat.max min_batch_size (batch_len / pool_size)).

(** [ThreadPool::enqueue], seen from the caller. [stop p] is the flag as
    the caller finds it once it holds [queue_mutex] (line 87): it is set
    there only when the destructor has begun, since [resize] sets and
    clears the flag without releasing the mutex. The call throws when
    the flag is set (line 88), otherwise the task is queued and the
    future will hold what the task returns. *)
Definition enqueue {A B} (p : PoolView) (task : A -> B) (arg : A) (len : nat)
  : M B :=
  if stop p then throw EnqueueOnStopped
  else tell [EvEnqueue len] ;;; ret (task arg).

Fixpoint enqueue_all {A B} (p : PoolView) (task : list A -> B)
         (slices : list (list A)) : M (list B) :=
  match slices with
  | [] => ret []
  | s :: rest =>
      fut <- enqueue p task s (length s) ;;
      futs <- enqueue_all p task rest ;;
      ret (fut :: futs)
  end.

(** The merge loop, lines 284-292: [merged] and [total_results]. *)
Definition merge_step (acc : list PlanetResult * nat) (r : list PlanetResult)
  : list PlanetResult * nat :=
  (fst acc ++ r, snd acc + length r).

Definition merge (futures : list (list PlanetResult))
  : list PlanetResult * nat :=
  fold_left merge_step futures ([], 0).

(** ** [compute_batch], first variant (lines 243-303)

    [exec] is what a slice task returns; the program is
    [compute_batch], where it is [slice_task]. *)
Definition compute_batch_with
           (exec : list PlanetRequest -> list PlanetResult)
           (sys : System) (requests : list PlanetRequest)
  : M (list PlanetResult) :=
  if negb (is_initialized sys) then throw NotInitialized
  else
    let p := pool sys in
    if workers p =? 0 then ([], Undefined)
    else
      let size := target_batch_size (length requests) (workers p) in
      match slice_loop (S (length requests)) requests size 0 with
      | None => ([], OutOfFuel)
      | Some slices =>
          futures <- enqueue_all p exec slices ;;
          let '(merged, total_results) := merge futures in
          if total_results =? length requests then ret merged
          else tell [EvLogError] ;;; throw ResultCountMismatch
      end.

Definition compute_batch : System -> list PlanetRequest -> M (list PlanetResult) :=
  compute_batch_with slice_task.

(** ** Initialization (lines 140-156 and 308-319)

    [probe] is the return code of the validation call
    [swe_calc_ut(2451545.0, SE_SUN, ...)]. [std::call_once] runs the
    body on the first call only; a body that throws leaves the flag
    unset. *)
Definition initialize_swiss_ephemeris (probe : Z) (sys : System) : M System :=
  if is_initialized sys then ret sys
  else if (probe <? 0)%Z then tell [EvLogError] ;;; throw EphemerisInitFailed
  else ret {| is_initialized := true; pool := pool sys |}.

(** [ThreadPool::resize], lines 47-69. It joins the workers of the pool
    while it holds [queue_mutex] (lines 52-59), which a worker needs to
    leave [condition.wait]: on a pool that has a worker the call never
    returns ([Pool.step] below has the interleavings). On a pool without
    workers it creates the threads; a creation that fails throws out of
    the call. The value is the pool it leaves. *)
Definition resize (plat : Platform) (num_threads : N) (p : PoolView) : M PoolView :=
  let num_threads :=
    if (num_threads =? 0)%N then hardware_concurrency plat else num_threads in
  tell [EvResize num_threads] ;;;
  if 0 <? workers p then ([], NeverReturns)
  else if (num_threads <=? thread_limit plat)%N
  then ret {| workers := N.to_nat num_threads; stop := false |}
  else throw ThreadCreationFailed.

Definition initialize (plat : Platform) (probe : Z) (thread_count : N)
           (sys : System) : M System :=
  sys1 <- initialize_swiss_ephemeris probe sys ;;
  let thread_count :=
    if (thread_count =? 0)%N then hardware_concurrency plat else thread_count in
  p <- resize plat thread_count (pool sys1) ;;
  ret {| is_initialized := is_initialized sys1; pool := p |}.

(** The state of the process before [initialize]: the singleton pool is
    built on first use with [hardware_concurrency()] threads (by a
    [resize] on the pool still without workers, on a platform that can
    create them). *)
Definition fresh_system (plat : Platform) : System :=
  {| is_initialized := false;
     pool := {| workers := N.to_nat (hardware_concurrency plat); stop := false |} |}.

(** ** The autotuner, first variant (lines 176-240) *)

(** [create_test_workload()]: 1000 instants times 10 planets. *)
Definition test_workload_size : N := 1000 * 10.

(** The loop increment, line 191, on [size_t]. *)
Definition next_threads (threads : N) : N :=
  if (threads <? 4)%N then ((threads + 1) mod size_max)%N
  else ((threads * 2) mod size_max)%N.

(** The recorded best: [best_threads] and [best_throughput]. *)
Record Best : Type := { best_threads : N; best_throughput : Q }.

(** Lines 226-231: [throughput > best_throughput * 1.05] and
    [throughput >= best_throughput * 0.95] on [double]s. *)
Definition select (threads : N) (tp : Q) (b : Best) : Best :=
  if negb (Qle_bool tp (double_mul (best_throughput b) d1_05))
  then {| best_threads := threads; best_throughput := tp |}
  else if (best_threads b <? threads)%N
          && Qle_bool (double_mul (best_throughput b) d0_95) tp
       then {| best_threads := threads; best_throughput := best_throughput b |}
       else b.

(** One pass of the [try] block, lines 193-231, on the singleton pool
    [p]: the pool is resized, the workload is run on it and the
    throughput is compared. The value is the pool and the record it
    leaves. *)
Definition autotune_trial (plat : Platform) (threads : N) (p : PoolView) (b : Best)
  : M (PoolView * Best) :=
  p' <- resize plat threads p ;;
  if (threads =? 0)%N then ([], Undefined)
  else
    tell [EvTrial threads] ;;;
    ret (p', select threads (throughput plat threads) b).

(** The [for] loop, lines 191-235. A [resize] that cannot create its
    threads throws inside the [try] and the [catch] leaves the loop; a
    [resize] that never returns ends the search without a result. *)
Fixpoint autotune_loop (fuel : nat) (plat : Platform) (max_threads threads : N)
         (p : PoolView) (b : Best) : M Best :=
  match fuel with
  | 0 => ([], OutOfFuel)
  | S f =>
      if (threads <=? max_threads)%N then
        try_catch (autotune_trial plat threads p b)
                  (fun next =>
                     autotune_loop f plat max_threads (next_threads threads)
                                   (fst next) (snd next))
                  b
      else ret b
  end.

(** The schedule has 64 counts below [2^63], so a search whose ceiling
    is below [2^63] makes at most 65 iterations. *)
Definition autotune_fuel : nat := 70.

(** Lines 182-184: the ceiling of the search. The product is computed
    on [unsigned int], the type of [hardware_concurrency()], before it
    is stored in the [size_t]. *)
Definition ceiling (plat : Platform) (max_threads : N) : N :=
  if (max_threads =? 0)%N
  then ((hardware_concurrency plat * 2) mod uint_max)%N
  else max_threads.

(** Lines 186-187. *)
Definition initial_best : Best := {| best_threads := 1; best_throughput := 0 |}.

Definition autotune_threads (plat : Platform) (sys : System) (max_threads : N)
  : M N :=
  if negb (is_initialized sys) then throw NotInitialized
  else
    b <- autotune_loop autotune_fuel plat (ceiling plat max_threads) 1
                       (pool sys) initial_best ;;
    ret (best_threads b).

(** ** Second variant of the file (lines 359-489) *)

(** [ThreadPool pool(n)]: the constructor creates [n] threads (lines
    363-379). When the creation of the first thread fails the exception
    leaves the constructor. When a later one fails, the threads already
    started are destroyed while joinable, which calls [std::terminate]:
    no handler is reached. *)
Definition pool_create (plat : Platform) (n : N) : M unit :=
  if (n <=? thread_limit plat)%N then tell [EvPoolCreate n]
  else if (thread_limit plat =? 0)%N then throw ThreadCreationFailed
  else ([], NeverReturns).

(** Lines 443-449: the recorded best is replaced on any improvement;
    [None] is the [break]. *)
Definition select_v2 (trial : N) (tp : Q) (b : Best) : option Best :=
  if negb (Qle_bool tp (best_throughput b))
  then Some {| best_threads := trial; best_throughput := tp |}
  else None.

(** One pass of the [try] block, lines 420-449: the value is the
    record to go on with, or [None] for the [break] of line 448. *)
Definition autotune_trial_v2 (plat : Platform) (trial : N) (b : Best)
  : M (option Best) :=
  pool_create plat trial ;;;
  if (trial =? 0)%N then ([], Undefined)
  else
    tell [EvTrial trial; EvPoolDestroy] ;;;
    ret (select_v2 trial (throughput plat trial) b).

(** The [while (true)] loop, lines 418-453; the [catch] of line 450 is
    reached by an exception that leaves the constructor of the pool. *)
Fixpoint autotune_loop_v2 (fuel : nat) (plat : Platform) (trial : N) (b : Best)
  : M Best :=
  match fuel with
  | 0 => ([], OutOfFuel)
  | S f =>
      try_catch (autotune_trial_v2 plat trial b)
                (fun next =>
                   match next with
                   | Some b' => autotune_loop_v2 f plat ((trial + 1) mod size_max)%N b'
                   | None => ret b
                   end)
                b
  end.

(** The trial count grows by one per iteration and the loop ends at the
    latest when thread creation fails. *)
Definition autotune_threads_v2 (plat : Platform) : M N :=
  b <- autotune_loop_v2 (S (N.to_nat (thread_limit plat))) plat 1 initial_best ;;
  ret (best_threads b).

(** [ThreadPool::enqueue] of this variant (lines 381-392) and
    [ParabolaThreadPool::submit]: no test of the stop flag. *)
Fixpoint enqueue_all_v2 {A B} (task : list A -> B) (slices : list (list A))
  : M (list B) :=
  match slices with
  | [] => ret []
  | s :: rest =>
      tell [EvEnqueue (length s)] ;;;
      futs <- enqueue_all_v2 task rest ;;
      ret (task s :: futs)
  end.

(** Lines 481-485. *)
Definition merge_v2 (futures : list (list PlanetResult)) : list PlanetResult :=
  fold_left (fun merged r => merged ++ r) futures [].

(** [compute_batch], lines 457-489. *)
Definition compute_batch_v2_with
           (exec : list PlanetRequest -> list PlanetResult)
           (plat : Platform) (requests : list PlanetRequest)
  : M (list PlanetResult) :=
  g_parabola_thread_count <- autotune_threads_v2 plat ;;
  pool_create plat g_parabola_thread_count ;;;
  if (g_parabola_thread_count =? 0)%N then ([], Undefined)
  else
    let slice_size :=
      Nat.max 1 (length requests / N.to_nat g_parabola_thread_count) in
    match slice_loop (S (length requests)) requests slice_size 0 with
    | None => ([], OutOfFuel)
    | Some slices =>
        futures <- enqueue_all_v2 exec slices ;;
        tell [EvSweClose; EvPoolDestroy] ;;;
        ret (merge_v2 futures)
    end.

(** The task of this variant, lines 468-478, computes what [slice_task]
    computes. *)
Definition compute_batch_v2 : Platform -> list PlanetRequest -> M (list PlanetResult) :=
  compute_batch_v2_with slice_task.

End Ephemeris.

(** ** The thread pool as a transition system

    The queue, the stop flag and the worker threads of [ThreadPool]
    (lines 36-137), with the thread that calls [resize] or the destructor.
    A worker's critical section (lines 119-127) runs under [queue_mutex],
    so it is one atomic step that needs the mutex free; [task()] runs
    outside it. [resize] takes the mutex on line 52 and keeps it until it
    returns; the destructor releases it (line 101) before it joins. *)
Module Pool.

Definition task : Type := nat.

Inductive worker : Type :=
| Waiting              (* at the top of the loop or inside condition.wait *)
| Running (t : task)   (* in task(), line 128 *)
| Exited.              (* returned from worker_loop, line 123 *)

Inductive caller : Type :=
| NoCall
| ResizeEntered (num_threads : nat)        (* before line 52 *)
| ResizeJoining (num_threads k : nat)      (* lines 55-59, joining worker k, mutex held *)
| DtorEntered                              (* before line 99 *)
| DtorJoining (k : nat)                    (* lines 103-107, mutex released *)
| DtorDone.                                (* after swe_close(), line 108 *)

Record state : Type :=
  { workers : list worker;
    tasks : list task;        (* the queue, front first *)
    stop : bool;
    executed : list task;     (* tasks whose call has returned, oldest first *)
    call : caller }.

(** [queue_mutex] is held between steps only by [resize]. *)
Definition mutex_held (s : state) : bool :=
  match call s with
  | ResizeJoining _ _ => true
  | _ => false
  end.

Inductive actor : Type :=
| Worker (i : nat)
| Caller.

Fixpoint set_nth {A} (i : nat) (x : A) (l : list A) : list A :=
  match l, i with
  | [], _ => []
  | _ :: l', 0 => x :: l'
  | y :: l', S i' => y :: set_nth i' x l'
  end.

Definition with_worker (s : state) (i : nat) (w : worker) : state :=
  {| workers := set_nth i w (workers s); tasks := tasks s; stop := stop s;
     executed := executed s; call := call s |}.

(** One iteration of [worker_loop], lines 117-129, in two steps. *)
Definition worker_step (i : nat) (s : state) : option state :=
  match nth_error (workers s) i with
  | Some Waiting =>
      if mutex_held s then None
      else
        match tasks s with
        | [] => if stop s then Some (with_worker s i Exited) else None
        | t :: q =>
            Some {| workers := set_nth i (Running t) (workers s); tasks := q;
                    stop := stop s; executed := executed s; call := call s |}
        end
  | Some (Running t) =>
      Some {| workers := set_nth i Waiting (workers s); tasks := tasks s;
              stop := stop s; executed := executed s ++ [t]; call := call s |}
  | Some Exited => None
  | None => None
  end.

Definition joined (s : state) (k : nat) : bool :=
  match nth_error (workers s) k with
  | Some Exited => true
  | _ => false
  end.

(** [resize] (lines 52-68) and [~ThreadPool] (lines 98-108). *)
Definition caller_step (s : state) : option state :=
  match call s with
  | NoCall => None
  | ResizeEntered n =>
      Some {| workers := workers s; tasks := tasks s; stop := true;
              executed := executed s; call := ResizeJoining n 0 |}
  | ResizeJoining n k =>
      if k <? length (workers s) then
        if joined s k
        then Some {| workers := workers s; tasks := tasks s; stop := stop s;
                     executed := executed s; call := ResizeJoining n (S k) |}
        else None
      else Some {| workers := repeat Waiting n; tasks := tasks s; stop := false;
                   executed := executed s; call := NoCall |}
  | DtorEntered =>
      Some {| workers := workers s; tasks := tasks s; stop := true;
              executed := executed s; call := DtorJoining 0 |}
  | DtorJoining k =>
      if k <? length (workers s) then
        if joined s k
        then Some {| workers := workers s; tasks := tasks s; stop := stop s;
                     executed := executed s; call := DtorJoining (S k) |}
        else None
      else Some {| workers := workers s; tasks := tasks s; stop := stop s;
                   executed := executed s; call := DtorDone |}
  | DtorDone => None
  end.

Definition step (a : actor) (s : state) : option state :=
  match a with
  | Worker i => worker_step i s
  | Caller => caller_step s
  end.

(** A schedule is the order in which the threads get to run; a step
    that is not enabled leaves the state as it is. *)
Fixpoint run (sched : list actor) (s : state) : state :=
  match sched with
  | [] => s
  | a :: rest =>
      match step a s with
      | Some s' => run rest s'
      | None => run rest s
      end
  end.

(** The tasks the pool holds: queued, being run, or done. *)
Definition running_tasks (ws : list worker) : list task :=
  flat_map (fun w => match w with Running t => [t] | _ => [] end) ws.

Definition held (s : state) : list task :=
  executed s ++ running_tasks (workers s) ++ tasks s.

(** [ThreadPool::enqueue], lines 86-92 of the first variant: [None] is
    a caller blocked on the mutex. *)
Definition enqueue (t : task) (s : state) : option (outcome state) :=
  if mutex_held s then None
  else if stop s then Some (Throw EnqueueOnStopped)
  else Some (Ok {| workers := workers s; tasks := tasks s ++ [t]; stop := stop s;
                   executed := executed s; call := call s |}).

(** [ParabolaThreadPool::submit] (parabola_wrapper.h, lines 35-46) and
    [ThreadPool::enqueue] of the second variant (lines 381-392). *)
Definition submit (t : task) (s : state) : option (outcome state) :=
  if mutex_held s then None
  else Some (Ok {| workers := workers s; tasks := tasks s ++ [t]; stop := stop s;
                   executed := executed s; call := call s |}).

End Pool.

(** ** The loader of the auxiliary data file (swevid_loader.cpp) *)
Module Loader.

Open Scope Z_scope.

(** [swevid_data] (the address of the mapping, [None] for [nullptr])
    and [swevid_size]. *)
Record loader : Type := { swevid_data : option Z; swevid_size : Z }.

(** The [memcpy] of line 58: first source address and byte count. *)
Record access : Type := { src : Z; len : Z }.

Definition size_t_max : Z := 2 ^ 64.

(** [static_cast<size_t>] of an [int]. *)
Definition to_size_t (x : Z) : Z := x mod size_t_max.

Definition is_int (x : Z) : Prop := - 2 ^ 31 <= x < 2 ^ 31.

(** Line 48: the name has at least seven characters and ends in ".swevid". *)
Definition has_swevid_extension (fname : string) : bool :=
  if (String.length fname <? 7)%nat then false
  else String.eqb (substring (String.length fname - 7) 7 fname) ".swevid".

Definition read_swe_file (ld : loader) (fname : string) (offset length : Z)
  : Z * option access :=
  match swevid_data ld with
  | None => (-1, None)
  | Some base =>
      if negb (has_swevid_extension fname) then (-1, None)
      else
        let uoffset := to_size_t offset in
        let ulength := to_size_t length in
        if swevid_size ld <? (uoffset + ulength) mod size_t_max then (-2, None)
        else (0, Some {| src := (base + uoffset) mod size_t_max; len := ulength |})
  end.

(** The bytes of an access lie in the mapped region. *)
Definition in_region (ld : loader) (a : access) : Prop :=
  match swevid_data ld with
  | None => False
  | Some base => base <= src a /\ src a + len a <= base + swevid_size ld
  end.

(** The range the caller asked for lies in the mapped region. *)
Definition range_in_file (ld : loader) (offset length : Z) : Prop :=
  0 <= offset /\ 0 <= length /\ offset + length <= swevid_size ld.

(** A mapping as [mmap] gives it: it lies inside the address space,
    away from address 0 and from its end. *)
Definition well_mapped (ld : loader) : Prop :=
  match swevid_data ld with
  | None => True
  | Some base =>
      0 < base /\ 0 <= swevid_size ld /\ base + swevid_size ld < size_t_max
  end.

End Loader.

(** ** The rest of the wrapper and the standalone tools *)

(** A caller that waits on a future of a pool without workers waits
    forever: [None]. *)
Definition awaited (A : Type) : Type := option A.

Section Tools.

Variable double : Type.
Variable SEFLG_SPEED : Z.
Variable swe_calc_ut : double -> Z -> Z -> Z * list double * string.

(** The body numbers of swephexp.h, in the order of the array
    [planets] (lines 162-163), and the instant
    [base_jd + i * (1.0 / 1440.0)] of line 167. *)
Variable SE_SUN SE_MOON SE_MERCURY SE_VENUS SE_MARS : Z.
Variable SE_JUPITER SE_SATURN SE_URANUS SE_NEPTUNE SE_PLUTO : Z.
Variable minute_jd : nat -> double.

Definition planets : list Z :=
  [SE_SUN; SE_MOON; SE_MERCURY; SE_VENUS; SE_MARS;
   SE_JUPITER; SE_SATURN; SE_URANUS; SE_NEPTUNE; SE_PLUTO].

(** [create_test_workload], lines 159-173: the outer loop over [i], the
    inner one over [planets]. *)
Definition workload_row (i : nat) : list (PlanetRequest double) :=
  map (fun pid => {| jd := minute_jd i; ipl := pid |}) planets.

Definition create_test_workload (count : nat) : list (PlanetRequest double) :=
  flat_map workload_row (seq 0 count).

(** [main], lines 322-340. [probe_of path] is the return code of the
    validation call when the ephemeris path is [path]. The value is the
    exit code and what is written to [std::cout]. *)
Definition main (probe_of : string -> Z) (plat : Platform) (sys : System)
           (argv : list string) : M (Z * option N) :=
  match argv with
  | _ :: arg1 :: rest =>
      if String.eqb arg1 "--tune" then
        let ephe_path := match rest with
                         | path :: _ => path
                         | [] => "./ephe"%string
                         end in
        match (sys1 <- initialize_swiss_ephemeris (probe_of ephe_path) sys ;;
               autotune_threads plat sys1 0) with
        | (tr, Ok threads) => (tr, Ok (0%Z, Some threads))
        | (tr, Throw _) => (tr, Ok (1%Z, None))
        | (tr, NeverReturns) => (tr, NeverReturns)
        | (tr, Undefined) => (tr, Undefined)
        | (tr, OutOfFuel) => (tr, OutOfFuel)
        end
      else ret (0%Z, None)
  | _ => ret (0%Z, None)
  end.

(** *** swisseph_parallel_patch.cpp *)

(** Its [PlanetResult] has no error text. *)
Record PatchResult : Type :=
  { patch_ipl : Z; patch_xx : list double; patch_errcode : Z }.

(** The task of lines 86-92: [errcode = (serr[0] != '\0')]. *)
Definition patch_task (req : PlanetRequest double) : PatchResult :=
  let '(ret, coords, msg) := swe_calc_ut (jd req) (ipl req) SEFLG_SPEED in
  {| patch_ipl := ipl req; patch_xx := coords;
     patch_errcode := match msg with
                      | EmptyString => 0%Z
                      | String _ _ => 1%Z
                      end |}.

(** A pool local to one call, one task per item, the futures awaited in
    the order of submission (lines 81-99, and [parabola] in
    parabola_wrapper.h, lines 66-78). Without workers the first [get]
    never returns. *)
Definition run_on_local_pool {A B} (plat : Platform) (num_threads : N)
           (task : A -> B) (items : list A) : M (awaited (list B)) :=
  pool_create plat num_threads ;;;
  tell (map (fun _ => EvEnqueue 1) items) ;;;
  match items with
  | [] => tell [EvPoolDestroy] ;;; ret (Some [])
  | _ :: _ =>
      if (num_threads =? 0)%N then ret None
      else tell [EvPoolDestroy] ;;; ret (Some (map task items))
  end.

Definition compute_planets_threadpool (plat : Platform)
           (requests : list (PlanetRequest double)) (num_threads : N)
  : M (awaited (list PatchResult)) :=
  run_on_local_pool plat num_threads patch_task requests.

Definition parabola {T R} (plat : Platform) (g_parabola_thread_count : N)
           (items : list T) (func : T -> R) : M (awaited (list R)) :=
  run_on_local_pool plat g_parabola_thread_count func items.

(** [swephmain], lines 101-139: the five trials and the choice of the
    thread count. *)
Definition thread_counts : list N := [1; 2; 4; 8; 16]%N.

Definition charts : nat := 1000.

Fixpoint swephmain_loop (plat : Platform) (batch : list (PlanetRequest double))
         (counts : list N) (b : Best) : M (awaited Best) :=
  match counts with
  | [] => ret (Some b)
  | threads :: rest =>
      results <- compute_planets_threadpool plat batch threads ;;
      match results with
      | None => ret None
      | Some _ =>
          tell [EvTrial threads] ;;;
          swephmain_loop plat batch rest
            (if negb (Qle_bool (throughput plat threads) (best_throughput b))
             then {| best_threads := threads;
                     best_throughput := throughput plat threads |}
             else b)
      end
  end.

(** The value is the [g_parabola_thread_count] it leaves. *)
Definition swephmain (plat : Platform) : M (awaited N) :=
  b <- swephmain_loop plat (create_test_workload charts) thread_counts initial_best ;;
  ret (option_map best_threads b).

End Tools.

(** The tasks of one tuning trial, lines 199-201 of the first variant
    and 424-426 of the second: the workload cut every
    [max(1, size / threads)] requests. [None] is the division by zero. *)
Definition trial_slices {A} (workload : list A) (threads : nat)
  : option (list (list A)) :=
  if threads =? 0 then None
  else slice_loop (S (length workload)) workload
                  (Nat.max 1 (length workload / threads)) 0.

(** ** Loading the auxiliary data file (swevid_loader.cpp, lines 14-39) *)
Module LoaderIO.

Import Loader.

(** What [open], [fstat] and [mmap] answer for a path: the file cannot
    be opened, its size cannot be read, it has [st_size] bytes and
    cannot be mapped, or it is mapped at an address. *)
Inductive file_status : Type :=
| OpenFails
| StatFails
| MapFails (st_size : Z)
| Mapped (st_size : Z) (addr : Z).

(** The globals are written once [fstat] has succeeded: the size
    first, then the address, which is reset to [nullptr] when [mmap]
    fails. An earlier mapping is never unmapped. *)
Definition load_swevid (fs : string -> file_status) (path : string) (ld : loader)
  : bool * loader :=
  match fs path with
  | OpenFails => (false, ld)
  | StatFails => (false, ld)
  | MapFails st_size =>
      (false, {| swevid_data := None; swevid_size := to_size_t st_size |})
  | Mapped st_size addr =>
      (true, {| swevid_data := if (addr =? 0)%Z then None else Some addr;
                swevid_size := to_size_t st_size |})
  end.

(** The state of the globals at program start. *)
Definition unloaded : loader := {| swevid_data := None; swevid_size := 0 |}.

End LoaderIO.

(** ** Vocabulary of the properties *)

(** Every slice but the last one has [step] elements; the last one has
    between 1 and [step]. *)
Fixpoint full_but_last {A} (step : nat) (slices : list (list A)) : Prop :=
  match slices with
  | [] => True
  | s :: rest =>
      match rest with
      | [] => 1 <= length s <= step
      | _ :: _ => length s = step /\ full_but_last step rest
      end
  end.

(** [results] answers [requests] item by item, in the same order. *)
Definition answers {A B} (f : A -> B) (requests : list A) (results : list B) : Prop :=
  length results = length requests
  /\ forall i req, nth_error requests i = Some req -> nth_error results i = Some (f req).

(** The slice lengths a trace shows, in submission order. *)
Fixpoint enqueued (tr : list event) : list nat :=
  match tr with
  | [] => []
  | EvEnqueue n :: rest => n :: enqueued rest
  | _ :: rest => enqueued rest
  end.

(** The thread counts of the trials a trace shows, in the order they ran. *)
Fixpoint trials (tr : list event) : list N :=
  match tr with
  | [] => []
  | EvTrial n :: rest => n :: trials rest
  | _ :: rest => trials rest
  end.



(** The thread counts 1, 2, ..., [k], and what a trial of the second
    variant with [t] threads leaves in the trace. *)
Definition counts_to (k : N) : list N := map N.of_nat (seq 1 (N.to_nat k)).

Definition trial_events (t : N) : list event :=
  [EvPoolCreate t; EvTrial t; EvPoolDestroy].

(** The best throughput the second autotuner holds when it compares
    the trial with [t] threads, every trial before it having improved
    on the one before: nothing yet at the first trial, the throughput
    of the trial before afterwards. *)
Definition recorded_before (plat : Platform) (t : N) : Q :=
  if (t =? 1)%N then 0%Q else throughput plat (t - 1).

(** The trial with [k] threads is the first that does not measure more
    than the trial before it, and the platform can create its threads. *)
Definition first_flat_trial (plat : Platform) (k : N) : Prop :=
  (1 <= k <= thread_limit plat)%N
  /\ (k < size_max)%N
  /\ (forall t, (1 <= t < k)%N -> (recorded_before plat t < throughput plat t)%Q)
  /\ (throughput plat k <= recorded_before plat k)%Q.

(** The throughput stops growing before the platform runs out of
    threads. *)
Definition tuning_ends (plat : Platform) : Prop :=
  exists k, first_flat_trial plat k.

(** Every trial up to the thread limit measures more than the one
    before: the search of the second variant goes on to a pool whose
    threads cannot all be created. *)
Definition climbs_to_limit (plat : Platform) : Prop :=
  (1 <= thread_limit plat)%N
  /\ (thread_limit plat < size_max - 1)%N
  /\ forall t, (1 <= t <= thread_limit plat)%N ->
               (recorded_before plat t < throughput plat t)%Q.

(** The state [resize] is in while it joins: the mutex is held and the
    workers it waits for are still alive. *)
Definition blocked_in_resize (n : nat) (q : list Pool.task) (s : Pool.state) : Prop :=
  Pool.call s = Pool.ResizeJoining n 0
  /\ Pool.stop s = true
  /\ Pool.tasks s = q
  /\ Pool.workers s <> []
  /\ Forall (fun w => w <> Pool.Exited) (Pool.workers s).

Definition is_enqueue (e : event) : bool :=
  match e with
  | EvEnqueue _ => true
  | _ => false
  end.

(** ** A small instance to run the definitions on

    The instants are integers and the routine reports a negative code
    for a negative body number. *)
Module Demo.

Definition calc (jd : Z) (ipl iflag : Z) : Z * list Z * string :=
  if (ipl <? 0)%Z then ((-1)%Z, [], "illegal planet number"%string)
  else (iflag, [jd; ipl; 0; 0; 0; 0]%Z, EmptyString).

Definition flag : Z := 256%Z.

Definition request (ipl : Z) : PlanetRequest Z := {| jd := 2451545%Z; ipl := ipl |}.

(** [n] requests for the bodies 0, 1, ..., n-1. *)
Definition batch (n : nat) : list (PlanetRequest Z) :=
  map (fun k => request (Z.of_nat k)) (seq 0 n).

(** A machine with four cores on which eight threads can be created;
    throughput grows with the thread count. *)
Definition machine : Platform :=
  {| hardware_concurrency := 4%N; thread_limit := 8%N;
     throughput := fun n => (Z.of_N n # 1)%Q |}.

(** A machine that does not report its concurrency. *)
Definition unknown_cores : Platform :=
  {| hardware_concurrency := 0%N; thread_limit := 8%N;
     throughput := fun n => (Z.of_N n # 1)%Q |}.

(** Two threads are 2% slower than one. *)
Definition flat : Platform :=
  {| hardware_concurrency := 1%N; thread_limit := 8%N;
     throughput := fun n => if (n =? 1)%N then (100 # 1)%Q else (98 # 1)%Q |}.

Definition ready (n : nat) : System :=
  {| is_initialized := true; pool := {| workers := n; stop := false |} |}.

(** A file of 100 bytes mapped at address 4096. *)
Definition mapped : Loader.loader :=
  {| Loader.swevid_data := Some 4096%Z; Loader.swevid_size := 100%Z |}.

(** A pool with one idle worker and task 7 in the queue, at the moment
    [resize(1)] is called, and the same pool at the moment it is
    destroyed. *)
Definition resizing : Pool.state :=
  {| Pool.workers := [Pool.Waiting]; Pool.tasks := [7]; Pool.stop := false;
     Pool.executed := []; Pool.call := Pool.ResizeEntered 1 |}.

(** ... and once [resize] has taken the mutex and set the flag. *)
Definition joining : Pool.state :=
  {| Pool.workers := [Pool.Waiting]; Pool.tasks := [7]; Pool.stop := true;
     Pool.executed := []; Pool.call := Pool.ResizeJoining 1 0 |}.

Definition schedule : list Pool.actor :=
  [Pool.Worker 0; Pool.Caller; Pool.Worker 0; Pool.Caller; Pool.Worker 0].

Definition destroying : Pool.state :=
  {| Pool.workers := [Pool.Waiting]; Pool.tasks := [7]; Pool.stop := false;
     Pool.executed := []; Pool.call := Pool.DtorEntered |}.

(** The pool [destroying] once its destructor has set the flag, and
    once the worker has then run the task and left its loop: stopped
    and drained, the destructor about to join. *)
Definition stopping : Pool.state :=
  {| Pool.workers := [Pool.Waiting]; Pool.tasks := [7]; Pool.stop := true;
     Pool.executed := []; Pool.call := Pool.DtorJoining 0 |}.

Definition drained : Pool.state :=
  {| Pool.workers := [Pool.Exited]; Pool.tasks := []; Pool.stop := true;
     Pool.executed := [7]; Pool.call := Pool.DtorJoining 0 |}.

(** A slice task that loses the last result of its slice. *)
Definition lossy (slice : list (PlanetRequest Z)) : list (PlanetResult Z) :=
  removelast (slice_task flag calc slice).

End Demo.

(** *** Vocabulary of the further properties *)

(** A state of the pool in which no thread can take a step. *)
Definition quiescent (s : Pool.state) : Prop :=
  forall a, Pool.step a s = None.

(** The pool is being destroyed, or has been. *)
Definition in_destructor (s : Pool.state) : Prop :=
  match Pool.call s with
  | Pool.DtorEntered | Pool.DtorJoining _ | Pool.DtorDone => True
  | _ => False
  end.

(** What the workers still have to do, and what the destructor has:
    every step that is taken makes the sum smaller. *)
Definition worker_weight (w : Pool.worker) : nat :=
  match w with
  | Pool.Waiting => 1
  | Pool.Running _ => 2
  | Pool.Exited => 0
  end.

Definition caller_weight (s : Pool.state) : nat :=
  match Pool.call s with
  | Pool.DtorEntered => length (Pool.workers s) + 2
  | Pool.DtorJoining k => length (Pool.workers s) - k + 1
  | _ => 0
  end.

Definition weight (s : Pool.state) : nat :=
  3 * length (Pool.tasks s)
  + list_sum (map worker_weight (Pool.workers s))
  + caller_weight s.

(** The number of steps of a schedule that are taken. *)
Fixpoint steps_taken (sched : list Pool.actor) (s : Pool.state) : nat :=
  match sched with
  | [] => 0
  | a :: rest =>
      match Pool.step a s with
      | Some s' => S (steps_taken rest s')
      | None => steps_taken rest s
      end
  end.

(** [fname] ends in ".swevid". *)
Definition ends_in_swevid (fname : string) : Prop :=
  exists stem : string, fname = (stem ++ ".swevid")%string.

(** A throughput no trial of the list exceeds. *)
Definition not_exceeded (plat : Platform) (ts : list N) (q : Q) : Prop :=
  forall t, In t ts -> (throughput plat t <= q)%Q.

(** The thread count [g] is where the throughput stops growing: it
    grows strictly from 1 to [g], and the next count, if the platform
    has it, is no better (or not even one thread gave a positive
    throughput). *)
Definition peak (plat : Platform) (g : N) : Prop :=
  (1 <= g)%N
  /\ (g <= thread_limit plat \/ g = 1)%N
  /\ (forall t, (1 <= t < g)%N -> (throughput plat t < throughput plat (t + 1))%Q)
  /\ ((g < thread_limit plat)%N ->
      (throughput plat (g + 1) <= throughput plat g)%Q
      \/ (g = 1%N /\ (throughput plat 1 <= 0)%Q)).

(** The record of [swephmain] after the trials [ts]: replaced by every
    trial that measures strictly more. *)
Definition picked (plat : Platform) (ts : list N) (b : Best) : Best :=
  fold_left (fun b t =>
               if negb (Qle_bool (throughput plat t) (best_throughput b))
               then {| best_threads := t; best_throughput := throughput plat t |}
               else b) ts b.

(** No [resize] is under way. *)
Definition not_resizing (s : Pool.state) : Prop :=
  in_destructor s \/ Pool.call s = Pool.NoCall.

(** What holds of a pool throughout its destruction: a worker has
    exited only if the stop flag was set and the queue was empty, the
    flag is set once line 100 has run, and the workers already joined
    have exited. *)
Definition destructor_invariant (s : Pool.state) : Prop :=
  in_destructor s
  /\ (In Pool.Exited (Pool.workers s) -> Pool.stop s = true /\ Pool.tasks s = [])
  /\ match Pool.call s with
     | Pool.DtorJoining k =>
         Pool.stop s = true
         /\ forall j, j < k -> j < length (Pool.workers s) ->
                      nth_error (Pool.workers s) j = Some Pool.Exited
     | Pool.DtorDone =>
         Pool.stop s = true
         /\ forall j, j < length (Pool.workers s) ->
                      nth_error (Pool.workers s) j = Some Pool.Exited
     | _ => True
     end.

(** ** Further instances *)
Module Sample.

Definition files (path : string) : LoaderIO.file_status :=
  if String.eqb path "sepl_18.swevid" then LoaderIO.Mapped 100 4096
  else if String.eqb path "empty.swevid" then LoaderIO.MapFails 0
  else LoaderIO.OpenFails.

(** The validation call fails for every path but "./ephe". *)
Definition probe_of (path : string) : Z :=
  if String.eqb path "./ephe" then 0%Z else (-1)%Z.

Definition uninitialized : System :=
  {| is_initialized := false; pool := {| workers := 4; stop := false |} |}.

(** A machine with room for the sixteen threads of the largest trial of
    the patch; eight threads are the fastest. *)
Definition wide : Platform :=
  {| hardware_concurrency := 8%N; thread_limit := 64%N;
     throughput := fun n => if (n <=? 8)%N then (Z.of_N n # 1)%Q else (5 # 1)%Q |}.

(** One worker, tasks 1, 2, 3 queued, the pool in use. *)
Definition busy : Pool.state :=
  {| Pool.workers := [Pool.Waiting]; Pool.tasks := [1; 2; 3]; Pool.stop := false;
     Pool.executed := []; Pool.call := Pool.NoCall |}.

(** Two workers, one of them in a task, at the time of destruction. *)
Definition closing : Pool.state :=
  {| Pool.workers := [Pool.Waiting; Pool.Running 1]; Pool.tasks := [2; 3];
     Pool.stop := false; Pool.executed := []; Pool.call := Pool.DtorEntered |}.

(** Instants counted in minutes and the bodies numbered from 0 to 9. *)
Definition minute (i : nat) : Z := (2451545 * 1440 + Z.of_nat i)%Z.

Definition workload (count : nat) : list (PlanetRequest Z) :=
  create_test_workload 0 1 2 3 4 5 6 7 8 9 minute count.

Definition tune_default : list string := ["parabola_wrapper"; "--tune"]%string.

Definition tune_elsewhere : list string :=
  ["parabola_wrapper"; "--tune"; "/opt/ephe"; "parabola.conf"]%string.

(** An order in which the threads of [closing] may run. *)
Definition closing_schedule : list Pool.actor :=
  [Pool.Worker 1; Pool.Worker 0; Pool.Caller; Pool.Worker 1; Pool.Worker 0;
   Pool.Worker 0; Pool.Worker 1; Pool.Worker 1; Pool.Caller; Pool.Caller;
   Pool.Caller].

(** The pool inside its constructor, which calls [resize(3)]. *)
Definition constructing : Pool.state :=
  {| Pool.workers := []; Pool.tasks := []; Pool.stop := false;
     Pool.executed := []; Pool.call := Pool.ResizeEntered 3 |}.

(** A pool built without any thread. *)
Definition idle : Pool.state :=
  {| Pool.workers := []; Pool.tasks := [1; 2]; Pool.stop := false;
     Pool.executed := []; Pool.call := Pool.DtorEntered |}.

End Sample.

(** * Properties *)

(** ** Slicing *)

Lemma slice_loop_past_end {A} (fuel : nat) (v : list A) (step i : nat) :
  length v <= i -> slice_loop fuel v step i = Some [].
Proof.
  intros Hi. assert (Hb : (i <? length v) = false) by (apply Nat.ltb_ge; exact Hi).
  destruct fuel; simpl; rewrite Hb; reflexivity.
Qed.

Lemma subvector_split {A} (v : list A) (step i : nat) :
  subvector v i (Nat.min (length v) (i + step)) ++ skipn (i + step) v = skipn i v.
Proof.
  unfold subvector.
  destruct (Nat.le_gt_cases (i + step) (length v)) as [Hle | Hgt].
  - rewrite Nat.min_r by exact Hle.
    replace (i + step - i) with step by lia.
    replace (i + step) with (step + i) by lia.
    rewrite <- skipn_skipn. apply firstn_skipn.
  - rewrite Nat.min_l by lia.
    rewrite (skipn_all2 v (n := i + step)) by lia.
    rewrite app_nil_r. apply firstn_all2. rewrite length_skipn. lia.
Qed.

Lemma subvector_length {A} (v : list A) (step i : nat) :
  length (subvector v i (Nat.min (length v) (i + step)))
  = Nat.min step (length v - i).
Proof.
  unfold subvector. rewrite length_firstn, length_skipn. lia.
Qed.

(** With a positive step and enough fuel the loop ends, and its slices
    are the rest of the vector cut at every [step] elements. *)
Lemma slice_loop_spec {A} (fuel : nat) (v : list A) (step : nat) :
  0 < step ->
  forall i, length v - i <= fuel ->
  exists slices,
    slice_loop fuel v step i = Some slices
    /\ concat slices = skipn i v
    /\ full_but_last step slices
    /\ (i < length v -> slices <> []).
Proof.
  intros Hstep. induction fuel as [| f IH]; intros i Hfuel.
  - exists []. simpl.
    assert (Hb : (i <? length v) = false) by (apply Nat.ltb_ge; lia).
    rewrite Hb. repeat split.
    + symmetry. apply skipn_all2. lia.
    + lia.
  - simpl. destruct (i <? length v) eqn:Hlt.
    + apply Nat.ltb_lt in Hlt.
      destruct (IH (i + step)) as (rest & Hrest & Hcat & Hfull & Hne); [lia |].
      rewrite Hrest. eexists. split; [reflexivity |].
      split; [| split].
      * simpl. rewrite Hcat. apply subvector_split.
      * simpl. destruct rest as [| r rest'].
        -- rewrite subvector_length.
           destruct (Nat.lt_ge_cases (i + step) (length v)) as [Hin | Hout].
           ++ exfalso. apply (Hne Hin). reflexivity.
           ++ lia.
        -- split; [| exact Hfull].
           rewrite subvector_length.
           destruct (Nat.lt_ge_cases (i + step) (length v)) as [Hin | Hout].
           ++ lia.
           ++ rewrite slice_loop_past_end in Hrest by exact Hout. discriminate.
      * intros _. discriminate.
    + apply Nat.ltb_ge in Hlt. exists []. repeat split.
      * symmetry. apply skipn_all2. exact Hlt.
      * lia.
Qed.

(** More fuel than the loop needs changes nothing. *)
Lemma slice_loop_fuel_irrelevant {A} (v : list A) (step : nat) :
  0 < step ->
  forall fuel fuel' i,
    length v - i <= fuel -> length v - i <= fuel' ->
    slice_loop fuel v step i = slice_loop fuel' v step i.
Proof.
  intros Hstep fuel. induction fuel as [| f IH]; intros fuel' i H1 H2.
  - rewrite !slice_loop_past_end by lia. reflexivity.
  - destruct fuel' as [| f'].
    + rewrite !slice_loop_past_end by lia. reflexivity.
    + simpl. destruct (i <? length v) eqn:Hlt; [| reflexivity].
      apply Nat.ltb_lt in Hlt.
      rewrite (IH f' (i + step)) by lia. reflexivity.
Qed.

(** ** The batch executor *)

Section BatchProperties.

Variable double : Type.
Variable SEFLG_SPEED : Z.
Variable swe_calc_ut : double -> Z -> Z -> Z * list double * string.

Local Abbreviation request := (PlanetRequest double).
Local Abbreviation result := (PlanetResult double).
Local Abbreviation calc := (calc_one SEFLG_SPEED swe_calc_ut).


Lemma target_batch_size_bounds (n p : nat) :
  min_batch_size <= target_batch_size n p <= max_batch_size.
Proof. unfold target_batch_size, min_batch_size, max_batch_size. lia. Qed.

Lemma enqueue_all_running {A B} (p : PoolView) (task : list A -> B)
      (slices : list (list A)) :
  stop p = false ->
  enqueue_all p task slices
  = (map (fun s => EvEnqueue (length s)) slices, Ok (map task slices)).
Proof.
  intros Hstop. induction slices as [| s rest IH]; [reflexivity |].
  cbn [enqueue_all]. rewrite IH. unfold enqueue. rewrite Hstop.
  cbn. rewrite app_nil_r. reflexivity.
Qed.

Lemma enqueue_all_v2_spec {A B} (task : list A -> B) (slices : list (list A)) :
  enqueue_all_v2 task slices
  = (map (fun s => EvEnqueue (length s)) slices, Ok (map task slices)).
Proof.
  induction slices as [| s rest IH]; [reflexivity |].
  cbn [enqueue_all_v2]. rewrite IH. cbn. rewrite app_nil_r. reflexivity.
Qed.

Lemma merge_from (futures : list (list result)) (acc : list result * nat) :
  fold_left (@merge_step double) futures acc
  = (fst acc ++ concat futures, snd acc + length (concat futures)).
Proof.
  revert acc. induction futures as [| r rest IH]; intros [m t]; simpl.
  - rewrite app_nil_r, Nat.add_0_r. reflexivity.
  - rewrite IH. simpl. rewrite length_app, <- app_assoc, Nat.add_assoc. reflexivity.
Qed.

Lemma merge_spec (futures : list (list result)) :
  merge futures = (concat futures, length (concat futures)).
Proof. unfold merge. rewrite merge_from. reflexivity. Qed.

Lemma merge_v2_spec (futures : list (list result)) :
  merge_v2 futures = concat futures.
Proof.
  unfold merge_v2.
  assert (H : forall acc, fold_left (fun merged r : list result => merged ++ r) futures acc
                          = acc ++ concat futures).
  { induction futures as [| r rest IH]; intros acc; simpl.
    - rewrite app_nil_r. reflexivity.
    - rewrite IH, <- app_assoc. reflexivity. }
  apply H.
Qed.

(** The slices of a whole batch. *)
Lemma batch_slices (requests : list request) (step : nat) :
  0 < step ->
  exists slices,
    slice_loop (S (length requests)) requests step 0 = Some slices
    /\ concat slices = requests
    /\ full_but_last step slices.
Proof.
  intros Hstep.
  destruct (@slice_loop_spec _ (S (length requests)) requests step Hstep 0)
    as (slices & Heq & Hcat & Hfull & _); [lia |].
  exists slices. repeat split; assumption.
Qed.

(** What the first variant returns on a running pool, for any slice task. *)
Lemma compute_batch_with_run (exec : list request -> list result)
      (sys : System) (requests : list request) :
  is_initialized sys = true ->
  0 < workers (pool sys) ->
  stop (pool sys) = false ->
  exists slices,
    slice_loop (S (length requests)) requests
               (target_batch_size (length requests) (workers (pool sys))) 0
    = Some slices
    /\ concat slices = requests
    /\ full_but_last (target_batch_size (length requests) (workers (pool sys))) slices
    /\ compute_batch_with exec sys requests
       = (if length (concat (map exec slices)) =? length requests
          then (map (fun s => EvEnqueue (length s)) slices,
                Ok (concat (map exec slices)))
          else (map (fun s => EvEnqueue (length s)) slices ++ [EvLogError],
                Throw ResultCountMismatch)).
Proof.
  intros Hinit Hworkers Hstop.
  pose proof (target_batch_size_bounds (length requests) (workers (pool sys))) as Hb.
  unfold min_batch_size in Hb.
  destruct (@batch_slices requests (target_batch_size (length requests) (workers (pool sys))))
    as (slices & Heq & Hcat & Hfull); [lia |].
  exists slices. repeat split; try assumption.
  unfold compute_batch_with. rewrite Hinit. cbv zeta. cbn [negb].
  assert (Hw : (workers (pool sys) =? 0) = false) by (apply Nat.eqb_neq; lia).
  rewrite Hw, Heq, enqueue_all_running by exact Hstop.
  cbn [bind]. rewrite merge_spec.
  destruct (length (concat (map exec slices)) =? length requests); cbn.
  - rewrite app_nil_r. reflexivity.
  - reflexivity.
Qed.

Lemma concat_slice_task (slices : list (list request)) :
  concat (map (slice_task SEFLG_SPEED swe_calc_ut) slices) = map calc (concat slices).
Proof. unfold slice_task. symmetry. apply concat_map. Qed.

Lemma compute_batch_run (sys : System) (requests : list request) :
  is_initialized sys = true ->
  0 < workers (pool sys) ->
  stop (pool sys) = false ->
  result_of (compute_batch SEFLG_SPEED swe_calc_ut sys requests)
  = Ok (map calc requests).
Proof.
  intros Hinit Hworkers Hstop.
  destruct (@compute_batch_with_run (slice_task SEFLG_SPEED swe_calc_ut)
                                    sys requests Hinit Hworkers Hstop)
    as (slices & _ & Hcat & _ & Hrun).
  unfold compute_batch. rewrite Hrun, concat_slice_task, Hcat, length_map, Nat.eqb_refl.
  reflexivity.
Qed.

Lemma enqueued_app (tr1 tr2 : list event) :
  enqueued (tr1 ++ tr2) = enqueued tr1 ++ enqueued tr2.
Proof.
  induction tr1 as [| e tr1 IH]; [reflexivity |].
  destruct e; cbn; rewrite ?IH; reflexivity.
Qed.

Lemma enqueued_enqueues {A} (slices : list (list A)) :
  enqueued (map (fun s => EvEnqueue (length s)) slices) = map (@length A) slices.
Proof.
  induction slices as [| s rest IH]; [reflexivity |]. cbn. rewrite IH. reflexivity.
Qed.

(** *** The second variant *)

Lemma Qle_bool_false (x y : Q) : Qle_bool x y = false <-> (y < x)%Q.
Proof.
  split.
  - intros H. apply Qnot_le_lt. intros Hle. apply Qle_bool_iff in Hle. congruence.
  - intros H. destruct (Qle_bool x y) eqn:Hb; [| reflexivity].
    apply Qle_bool_iff in Hb. exfalso. exact (Qlt_not_le _ _ H Hb).
Qed.

(** A trial on a platform that can create its threads. *)
Lemma autotune_trial_v2_runs (plat : Platform) (trial : N) (b : Best) :
  (1 <= trial <= thread_limit plat)%N ->
  autotune_trial_v2 plat trial b
  = (trial_events trial, Ok (select_v2 trial (throughput plat trial) b)).
Proof.
  intros [Hlow Hhigh]. unfold autotune_trial_v2, pool_create.
  assert (Hle : (trial <=? thread_limit plat)%N = true) by (apply N.leb_le; exact Hhigh).
  assert (Hnz : (trial =? 0)%N = false) by (apply N.eqb_neq; lia).
  rewrite Hle, Hnz. reflexivity.
Qed.

(** The loop from the trial with [trial] threads on, every trial before
    having improved: it runs the trials up to the first one that does
    not improve and leaves the count of the trial before that one. *)
Lemma autotune_loop_v2_run (plat : Platform) (k : N) :
  first_flat_trial plat k ->
  forall (fuel : nat) (trial : N) (b : Best),
    (1 <= trial <= k)%N ->
    best_threads b = N.max 1 (trial - 1) ->
    best_throughput b = recorded_before plat trial ->
    N.to_nat (k - trial) < fuel ->
    exists b',
      autotune_loop_v2 fuel plat trial b
      = (flat_map trial_events
                  (map N.of_nat (seq (N.to_nat trial) (S (N.to_nat (k - trial))))),
         Ok b')
      /\ best_threads b' = N.max 1 (k - 1).
Proof.
  intros (Hk & Hmax & Hgrow & Hflat). unfold size_max in Hmax.
  induction fuel as [| f IH]; intros trial b Htrial Hthreads Hbest Hfuel; [lia |].
  cbn [autotune_loop_v2]. rewrite autotune_trial_v2_runs by lia.
  unfold try_catch, select_v2. rewrite Hbest.
  destruct (N.eq_dec trial k) as [-> | Hne].
  - apply Qle_bool_iff in Hflat. rewrite Hflat. cbn [negb ret].
    exists b. split; [| exact Hthreads].
    rewrite N.sub_diag. cbn [N.to_nat seq map flat_map].
    rewrite N2Nat.id, !app_nil_r. reflexivity.
  - assert (Hlt : (recorded_before plat trial < throughput plat trial)%Q)
      by (apply Hgrow; lia).
    apply Qle_bool_false in Hlt. rewrite Hlt. cbn [negb].
    assert (Hnext : ((trial + 1) mod size_max = trial + 1)%N).
    { apply N.mod_small. unfold size_max. lia. }
    rewrite Hnext.
    destruct (IH (trial + 1)%N
                 {| best_threads := trial; best_throughput := throughput plat trial |})
      as (b' & Hrun & Hb'); [lia | cbn; lia | | lia |].
    { cbn [best_throughput]. unfold recorded_before.
      assert (H1 : (trial + 1 =? 1)%N = false) by (apply N.eqb_neq; lia).
      rewrite H1. f_equal. lia. }
    rewrite Hrun. exists b'. split; [| exact Hb'].
    replace (N.to_nat (trial + 1)) with (S (N.to_nat trial)) by lia.
    replace (S (N.to_nat (k - trial))) with (S (S (N.to_nat (k - (trial + 1))))) by lia.
    generalize (S (N.to_nat (k - (trial + 1)))). intros n.
    cbn [seq map flat_map]. rewrite N2Nat.id. reflexivity.
Qed.

(** The tuning pass of a batch call, on a platform where the
    throughput stops growing at the trial with [k] threads. *)
Lemma autotune_threads_v2_run (plat : Platform) (k : N) :
  first_flat_trial plat k ->
  autotune_threads_v2 plat
  = (flat_map trial_events (counts_to k), Ok (N.max 1 (k - 1))).
Proof.
  intros Hk. pose proof Hk as (Hrange & _).
  unfold autotune_threads_v2.
  destruct (@autotune_loop_v2_run plat k Hk (S (N.to_nat (thread_limit plat))) 1%N
              initial_best)
    as (b' & Hrun & Hb'); [lia | reflexivity | reflexivity | lia |].
  rewrite Hrun. cbn [bind ret]. rewrite app_nil_r, Hb'. unfold counts_to.
  replace (S (N.to_nat (k - 1))) with (N.to_nat k) by lia.
  reflexivity.
Qed.

(** What the second variant does, for any slice task: it tunes, builds
    a pool, submits the slices, closes the ephemeris and returns the
    concatenation. *)
Lemma compute_batch_v2_with_run (exec : list request -> list result)
      (plat : Platform) (k : N) (requests : list request) :
  first_flat_trial plat k ->
  exists slices,
    slice_loop (S (length requests)) requests
               (Nat.max 1 (length requests / N.to_nat (N.max 1 (k - 1)))) 0
    = Some slices
    /\ concat slices = requests
    /\ full_but_last (Nat.max 1 (length requests / N.to_nat (N.max 1 (k - 1)))) slices
    /\ compute_batch_v2_with exec plat requests
       = (flat_map trial_events (counts_to k)
            ++ EvPoolCreate (N.max 1 (k - 1))
            :: map (fun s => EvEnqueue (length s)) slices
            ++ [EvSweClose; EvPoolDestroy],
          Ok (concat (map exec slices))).
Proof.
  intros Hk. pose proof Hk as (Hrange & _).
  set (g := N.max 1 (k - 1)).
  destruct (@batch_slices requests (Nat.max 1 (length requests / N.to_nat g)))
    as (slices & Heq & Hcat & Hfull); [lia |].
  exists slices. repeat split; try assumption.
  unfold compute_batch_v2_with. rewrite (autotune_threads_v2_run Hk). fold g.
  cbn [bind]. unfold pool_create.
  assert (Hcreate : (g <=? thread_limit plat)%N = true) by (apply N.leb_le; lia).
  assert (Hnz : (g =? 0)%N = false) by (apply N.eqb_neq; lia).
  rewrite Hcreate, Hnz. cbn [tell bind]. rewrite Heq, enqueue_all_v2_spec.
  cbn. rewrite merge_v2_spec. reflexivity.
Qed.

Lemma compute_batch_v2_run (plat : Platform) (requests : list request) :
  tuning_ends plat ->
  result_of (compute_batch_v2 SEFLG_SPEED swe_calc_ut plat requests)
  = Ok (map calc requests).
Proof.
  intros [k Hk].
  destruct (@compute_batch_v2_with_run (slice_task SEFLG_SPEED swe_calc_ut)
                                       plat k requests Hk)
    as (slices & _ & Hcat & _ & Hrun).
  unfold compute_batch_v2. rewrite Hrun, concat_slice_task, Hcat. reflexivity.
Qed.

Lemma answers_map {A B} (f : A -> B) (l : list A) : answers f l (map f l).
Proof.
  split; [apply length_map |].
  intros i req Hreq. rewrite nth_error_map, Hreq. reflexivity.
Qed.

(** *** Order and count of the results *)



(** *** The count check *)


(** *** The slices *)

(** C7, as amended. On a running pool the first variant cuts the batch
    every [clamp(batchSize / poolSize, 10, 100)] requests: the slices
    are contiguous and in order, their concatenation is the batch, each
    has that many requests except the last, which has the 1 to that
    many that remain; they are submitted in this order, one task each,
    and the merged result is what the tasks return for them, in this
    order. The second variant cuts the same way but every
    [max(1, batchSize / threads)] requests, [threads] being what its
    tuning pass returned. *)
Theorem compute_batch_slices
        (sys : System) (plat : Platform) (requests : list request) :
  (is_initialized sys = true ->
   0 < workers (pool sys) ->
   stop (pool sys) = false ->
   exists slices,
     concat slices = requests
     /\ full_but_last
          (Nat.min 100 (Nat.max 10 (length requests / workers (pool sys)))) slices
     /\ forall exec : list request -> list result,
         trace_of (enqueue_all (pool sys) exec slices)
         = map (fun s => EvEnqueue (length s)) slices
         /\ enqueued (trace_of (compute_batch_with exec sys requests))
            = map (@length request) slices
         /\ (length (concat (map exec slices)) = length requests ->
             compute_batch_with exec sys requests
             = (map (fun s => EvEnqueue (length s)) slices,
                Ok (concat (map exec slices)))))
  /\ (tuning_ends plat ->
      exists tr threads slices,
        autotune_threads_v2 plat = (tr, Ok threads)
        /\ concat slices = requests
        /\ full_but_last (Nat.max 1 (length requests / N.to_nat threads)) slices
        /\ forall exec : list request -> list result,
            compute_batch_v2_with exec plat requests
            = (tr ++ EvPoolCreate threads
                  :: map (fun s => EvEnqueue (length s)) slices
                  ++ [EvSweClose; EvPoolDestroy],
               Ok (concat (map exec slices)))).
Proof.
  split.
  - intros Hinit Hworkers Hstop.
    destruct (@compute_batch_with_run (slice_task SEFLG_SPEED swe_calc_ut)
                                      sys requests Hinit Hworkers Hstop)
      as (slices & Heq & Hcat & Hfull & _).
    exists slices. split; [exact Hcat |]. split; [exact Hfull |].
    intros exec.
    destruct (@compute_batch_with_run exec sys requests Hinit Hworkers Hstop)
      as (slices' & Heq' & _ & _ & Hrun).
    rewrite Heq in Heq'. inversion Heq'; subst slices'.
    split; [rewrite enqueue_all_running by exact Hstop; reflexivity |].
    rewrite Hrun. split.
    + destruct (length (concat (map exec slices)) =? length requests);
        unfold trace_of; cbn [fst].
      * apply enqueued_enqueues.
      * rewrite enqueued_app, enqueued_enqueues. cbn. apply app_nil_r.
    + intros Hlen. apply Nat.eqb_eq in Hlen. rewrite Hlen. reflexivity.
  - intros [k Hk].
    destruct (@compute_batch_v2_with_run (slice_task SEFLG_SPEED swe_calc_ut)
                                         plat k requests Hk)
      as (slices & Heq & Hcat & Hfull & _).
    exists (flat_map trial_events (counts_to k)), (N.max 1 (k - 1)), slices.
    split; [apply autotune_threads_v2_run; exact Hk |].
    split; [exact Hcat |]. split; [exact Hfull |].
    intros exec.
    destruct (@compute_batch_v2_with_run exec plat k requests Hk)
      as (slices' & Heq' & _ & _ & Hrun).
    rewrite Heq in Heq'. inversion Heq'; subst slices'. exact Hrun.
Qed.

End BatchProperties.

(** *** Runs on the instances *)

(** On [Demo.flat] the second trial is the first that does not improve,
    on [Sample.wide] the ninth. *)
Lemma flat_first_flat_trial : first_flat_trial Demo.flat 2.
Proof.
  unfold first_flat_trial. split; [cbn; lia |]. split; [reflexivity |]. split.
  - intros t Ht. assert (t = 1%N) as -> by lia. reflexivity.
  - vm_compute. discriminate.
Qed.

Lemma wide_first_flat_trial : first_flat_trial Sample.wide 9.
Proof.
  unfold first_flat_trial. split; [cbn; lia |]. split; [reflexivity |]. split.
  - intros t Ht.
    assert (Hcases : t = 1%N \/ t = 2%N \/ t = 3%N \/ t = 4%N \/ t = 5%N
                     \/ t = 6%N \/ t = 7%N \/ t = 8%N) by lia.
    repeat destruct Hcases as [-> | Hcases]; try subst t; reflexivity.
  - vm_compute. discriminate.
Qed.



(** With the lossy task the first variant throws, for the three
    requests of the witness. *)
Lemma compute_batch_lossy_task :
  compute_batch_with Demo.lossy (Demo.ready 1) (Demo.batch 3)
  = ([EvEnqueue 3; EvLogError], Throw ResultCountMismatch).
Proof. vm_compute. reflexivity. Qed.

Lemma compute_batch_slices_witness :
  (exists slices,
      concat slices = Demo.batch 40
      /\ full_but_last (Nat.min 100 (Nat.max 10 (40 / 4))) slices
      /\ forall exec : list (PlanetRequest Z) -> list (PlanetResult Z),
          trace_of (enqueue_all (pool (Demo.ready 4)) exec slices)
          = map (fun s => EvEnqueue (length s)) slices
          /\ enqueued (trace_of (compute_batch_with exec (Demo.ready 4) (Demo.batch 40)))
             = map (@length (PlanetRequest Z)) slices
          /\ (length (concat (map exec slices)) = length (Demo.batch 40) ->
              compute_batch_with exec (Demo.ready 4) (Demo.batch 40)
              = (map (fun s => EvEnqueue (length s)) slices,
                 Ok (concat (map exec slices)))))
  /\ (exists tr threads slices,
         autotune_threads_v2 Demo.flat = (tr, Ok threads)
         /\ concat slices = Demo.batch 40
         /\ full_but_last (Nat.max 1 (40 / N.to_nat threads)) slices
         /\ forall exec : list (PlanetRequest Z) -> list (PlanetResult Z),
             compute_batch_v2_with exec Demo.flat (Demo.batch 40)
             = (tr ++ EvPoolCreate threads
                   :: map (fun s => EvEnqueue (length s)) slices
                   ++ [EvSweClose; EvPoolDestroy],
                Ok (concat (map exec slices)))).
Proof.
  destruct (@compute_batch_slices Z Demo.flag Demo.calc
              (Demo.ready 4) Demo.flat (Demo.batch 40)) as [Hfirst Hsecond].
  split.
  - apply Hfirst; [reflexivity | cbn; lia | reflexivity].
  - apply Hsecond. exists 2%N. exact flat_first_flat_trial.
Defined.

(** A batch of five requests goes out as one slice of five, below the
    minimum of ten; the second variant, whose tuning pass settles on one
    thread, submits 150 requests as one slice of 150, above the maximum
    of one hundred. *)
Lemma slice_size_outside_clamp :
  enqueued (trace_of (compute_batch Demo.flag Demo.calc (Demo.ready 2) (Demo.batch 5)))
  = [5]
  /\ target_batch_size 5 2 = 10
  /\ enqueued (trace_of (compute_batch_v2 Demo.flag Demo.calc Demo.flat (Demo.batch 150)))
     = [150]
  /\ result_of (compute_batch_v2 Demo.flag Demo.calc Demo.flat (Demo.batch 150))
     = Ok (map (calc_one Demo.flag Demo.calc) (Demo.batch 150))
  /\ autotune_threads_v2 Demo.flat
     = ([EvPoolCreate 1; EvTrial 1; EvPoolDestroy;
         EvPoolCreate 2; EvTrial 2; EvPoolDestroy], Ok 1%N).
Proof. vm_compute. repeat split. Qed.

(** ** Tuning and closing inside a batch call *)

Section BatchEffects.

Variable double : Type.
Variable SEFLG_SPEED : Z.
Variable swe_calc_ut : double -> Z -> Z -> Z * list double * string.

Local Abbreviation request := (PlanetRequest double).

Lemma enqueue_all_stopped {A B} (p : PoolView) (task : list A -> B)
      (slices : list (list A)) :
  stop p = true ->
  enqueue_all p task slices
  = match slices with
    | [] => ([], Ok [])
    | _ :: _ => ([], Throw EnqueueOnStopped)
    end.
Proof.
  intros Hstop. destruct slices as [| s rest]; [reflexivity |].
  cbn [enqueue_all]. unfold enqueue. rewrite Hstop. reflexivity.
Qed.

Lemma forallb_enqueues {A} (slices : list (list A)) :
  forallb is_enqueue (map (fun s => EvEnqueue (length s)) slices) = true.
Proof. induction slices as [| s rest IH]; [reflexivity | exact IH]. Qed.

(** The first variant only submits slices: no trial, no [swe_close],
    in any state of the system. *)
Lemma compute_batch_only_enqueues (sys : System) (requests : list request) :
  forallb is_enqueue (trace_of (compute_batch SEFLG_SPEED swe_calc_ut sys requests))
  = true.
Proof.
  destruct (is_initialized sys) eqn:Hinit.
  2:{ unfold compute_batch, compute_batch_with. rewrite Hinit. reflexivity. }
  destruct (workers (pool sys)) as [| w] eqn:Hw.
  { unfold compute_batch, compute_batch_with. rewrite Hinit, Hw. reflexivity. }
  destruct (stop (pool sys)) eqn:Hstop.
  - unfold compute_batch, compute_batch_with. rewrite Hinit, Hw. cbn [negb Nat.eqb].
    pose proof (target_batch_size_bounds (length requests) (S w)) as Hb.
    unfold min_batch_size in Hb.
    destruct (@slice_loop_spec _ (S (length requests)) requests
                (target_batch_size (length requests) (S w)) ltac:(lia) 0 ltac:(lia))
      as (slices & Heq & _ & _ & Hne).
    rewrite Heq, enqueue_all_stopped by exact Hstop.
    destruct slices as [| s rest]; [| reflexivity].
    destruct requests as [| r rs]; [reflexivity |].
    exfalso. apply Hne; [cbn; lia | reflexivity].
  - destruct (@compute_batch_with_run double (slice_task SEFLG_SPEED swe_calc_ut)
                sys requests Hinit ltac:(lia) Hstop)
      as (slices & _ & Hcat & _ & Hrun).
    unfold compute_batch. rewrite Hrun, concat_slice_task, Hcat, length_map, Nat.eqb_refl.
    apply forallb_enqueues.
Qed.

Lemma counts_to_first (k : N) :
  (1 <= k)%N -> counts_to k = 1%N :: map N.of_nat (seq 2 (N.to_nat k - 1)).
Proof.
  intros Hk. unfold counts_to.
  destruct (N.to_nat k) as [| n] eqn:Hn; [lia |].
  replace (S n - 1) with n by lia. reflexivity.
Qed.

(** C3. The second variant of [compute_batch] (lines 457-489) runs the
    autotuner and calls [swe_close] in every batch call: for any batch,
    on a platform where the tuning pass ends, its trace starts with a
    tuning trial and contains [swe_close], issued before the pool of the
    call is destroyed. The first variant does neither: it only submits
    slices. *)
Theorem compute_batch_v2_tunes_and_closes
        (plat : Platform) (requests : list request) :
  tuning_ends plat ->
  exists tuning rest,
    trace_of (compute_batch_v2 SEFLG_SPEED swe_calc_ut plat requests)
    = EvPoolCreate 1 :: EvTrial 1 :: EvPoolDestroy :: tuning
      ++ rest ++ [EvSweClose; EvPoolDestroy]
    /\ result_of (compute_batch_v2 SEFLG_SPEED swe_calc_ut plat requests)
       = Ok (map (calc_one SEFLG_SPEED swe_calc_ut) requests)
    /\ forallb is_enqueue
               (trace_of (compute_batch SEFLG_SPEED swe_calc_ut
                                        {| is_initialized := true;
                                           pool := {| workers := 1; stop := false |} |}
                                        requests))
       = true.
Proof.
  intros [k Hk]. pose proof Hk as (Hrange & _).
  destruct (@compute_batch_v2_with_run double (slice_task SEFLG_SPEED swe_calc_ut)
              plat k requests Hk)
    as (slices & _ & Hcat & _ & Hrun).
  exists (flat_map trial_events (map N.of_nat (seq 2 (N.to_nat k - 1)))),
         (EvPoolCreate (N.max 1 (k - 1)) :: map (fun s => EvEnqueue (length s)) slices).
  split; [| split; [| apply compute_batch_only_enqueues]].
  - unfold compute_batch_v2. rewrite Hrun. unfold trace_of. cbn [fst].
    rewrite counts_to_first by lia. reflexivity.
  - unfold compute_batch_v2. rewrite Hrun, concat_slice_task, Hcat. reflexivity.
Qed.

(** ** Initialization and the size of the pool *)

Lemma initialize_pool_size (plat : Platform) (probe : Z) (thread_count : N)
      (sys sys' : System) :
  result_of (initialize plat probe thread_count sys) = Ok sys' ->
  is_initialized sys' = true
  /\ workers (pool sys')
     = N.to_nat (if (thread_count =? 0)%N then hardware_concurrency plat
                 else thread_count).
Proof.
  unfold initialize, initialize_swiss_ephemeris, resize.
  set (n := if (thread_count =? 0)%N then hardware_concurrency plat else thread_count).
  assert (Hn : (if (n =? 0)%N then hardware_concurrency plat else n) = n).
  { subst n. destruct (thread_count =? 0)%N eqn:Htc.
    - destruct (hardware_concurrency plat =? 0)%N eqn:Hhw; [| reflexivity].
      reflexivity.
    - rewrite Htc. reflexivity. }
  rewrite Hn.
  destruct (is_initialized sys) eqn:Hinit.
  - cbn [bind ret tell pool]. destruct (0 <? workers (pool sys)); [discriminate |].
    destruct (n <=? thread_limit plat)%N; cbn; [| discriminate].
    intros H. inversion H. cbn. split; [exact Hinit | reflexivity].
  - destruct (probe <? 0)%Z; [discriminate |].
    cbn [bind ret tell pool]. destruct (0 <? workers (pool sys)); [discriminate |].
    destruct (n <=? thread_limit plat)%N; cbn; [| discriminate].
    intros H. inversion H. cbn. split; reflexivity.
Qed.

(** C10. Where [hardware_concurrency()] reports 0, [initialize] with a
    thread count of 0 completes and leaves the pool without any worker,
    and the slice-size computation of [compute_batch] then divides by
    zero, for every batch. *)
Theorem initialize_leaves_empty_pool
        (plat : Platform) (probe : Z) (requests : list request) :
  hardware_concurrency plat = 0%N ->
  (0 <= probe)%Z ->
  exists sys,
    result_of (initialize plat probe 0 (fresh_system plat)) = Ok sys
    /\ is_initialized sys = true
    /\ workers (pool sys) = 0
    /\ compute_batch SEFLG_SPEED swe_calc_ut sys requests = ([], Undefined).
Proof.
  intros Hhw Hprobe.
  assert (Hp : (probe <? 0)%Z = false) by (apply Z.ltb_ge; exact Hprobe).
  unfold initialize, initialize_swiss_ephemeris, resize, fresh_system.
  assert (H0 : (0 <=? thread_limit plat)%N = true) by (apply N.leb_le; lia).
  cbn [is_initialized N.eqb]. rewrite Hp, Hhw. cbn [N.eqb]. rewrite H0. cbn.
  eexists. split; [reflexivity |]. repeat split.
Qed.

End BatchEffects.

Lemma compute_batch_v2_tunes_and_closes_witness :
  exists tuning rest,
    trace_of (compute_batch_v2 Demo.flag Demo.calc Sample.wide (Demo.batch 2))
    = EvPoolCreate 1 :: EvTrial 1 :: EvPoolDestroy :: tuning
      ++ rest ++ [EvSweClose; EvPoolDestroy]
    /\ result_of (compute_batch_v2 Demo.flag Demo.calc Sample.wide (Demo.batch 2))
       = Ok (map (calc_one Demo.flag Demo.calc) (Demo.batch 2))
    /\ forallb is_enqueue
               (trace_of (compute_batch Demo.flag Demo.calc
                                        {| is_initialized := true;
                                           pool := {| workers := 1; stop := false |} |}
                                        (Demo.batch 2)))
       = true.
Proof.
  apply (@compute_batch_v2_tunes_and_closes Z Demo.flag Demo.calc
           Sample.wide (Demo.batch 2)).
  exists 9%N. exact wide_first_flat_trial.
Defined.

(** The whole trace of such a call: nine tuning trials for a batch of
    two requests, then the pool of the call, the two slices and
    [swe_close]. *)
Lemma compute_batch_v2_trace :
  trace_of (compute_batch_v2 Demo.flag Demo.calc Sample.wide (Demo.batch 2))
  = flat_map trial_events [1; 2; 3; 4; 5; 6; 7; 8; 9]%N
    ++ [EvPoolCreate 8; EvEnqueue 1; EvEnqueue 1; EvSweClose; EvPoolDestroy].
Proof. vm_compute. reflexivity. Qed.

Lemma initialize_leaves_empty_pool_witness :
  exists sys,
    result_of (initialize Demo.unknown_cores 0 0 (fresh_system Demo.unknown_cores)) = Ok sys
    /\ is_initialized sys = true
    /\ workers (pool sys) = 0
    /\ compute_batch Demo.flag Demo.calc sys (Demo.batch 40) = ([], Undefined).
Proof.
  apply (@initialize_leaves_empty_pool Z Demo.flag Demo.calc
           Demo.unknown_cores 0%Z (Demo.batch 40)).
  - reflexivity.
  - lia.
Defined.

(** ** The autotuner *)

(** C5, as amended. In the first variant a trial replaces the recorded
    best throughput, and with it the recorded thread count, exactly when
    its throughput exceeds the product of the recorded one and 1.05, as
    [double] arithmetic gives it; otherwise a higher thread count whose
    throughput is at least the product of the recorded one and 0.95
    replaces the recorded thread count only; otherwise the record is
    kept. The second variant replaces the record on any strict
    improvement and otherwise leaves its loop. *)
Theorem select_policy (threads : N) (tp : Q) (b : Best) :
  ((double_mul (best_throughput b) d1_05 < tp)%Q ->
   select threads tp b = {| best_threads := threads; best_throughput := tp |})
  /\ ((tp <= double_mul (best_throughput b) d1_05)%Q ->
      (best_threads b < threads)%N ->
      (double_mul (best_throughput b) d0_95 <= tp)%Q ->
      select threads tp b
      = {| best_threads := threads; best_throughput := best_throughput b |})
  /\ ((tp <= double_mul (best_throughput b) d1_05)%Q ->
      ((threads <= best_threads b)%N
       \/ (tp < double_mul (best_throughput b) d0_95)%Q) ->
      select threads tp b = b)
  /\ ((best_throughput b < tp)%Q ->
      select_v2 threads tp b
      = Some {| best_threads := threads; best_throughput := tp |})
  /\ ((tp <= best_throughput b)%Q -> select_v2 threads tp b = None).
Proof.
  unfold select, select_v2. repeat split.
  - intros H. apply Qle_bool_false in H. rewrite H. reflexivity.
  - intros H1 H2 H3. apply Qle_bool_iff in H1, H3. apply N.ltb_lt in H2.
    rewrite H1, H2, H3. reflexivity.
  - intros H1 [H2 | H2]; apply Qle_bool_iff in H1; rewrite H1; cbn [negb].
    + apply N.ltb_ge in H2. rewrite H2. reflexivity.
    + apply Qle_bool_false in H2. rewrite H2, andb_false_r. reflexivity.
  - intros H. apply Qle_bool_false in H. rewrite H. reflexivity.
  - intros H. apply Qle_bool_iff in H. rewrite H. reflexivity.
Qed.

(** The workload of 10000 requests in 57 ms with one thread: two
    threads that take 58 ms are preferred, two threads that take 60 ms
    are not. *)
Lemma select_policy_witness :
  select 2 (throughput_of 10000 58)
         {| best_threads := 1; best_throughput := throughput_of 10000 57 |}
  = {| best_threads := 2; best_throughput := throughput_of 10000 57 |}
  /\ select 2 (throughput_of 10000 60)
            {| best_threads := 1; best_throughput := throughput_of 10000 57 |}
     = {| best_threads := 1; best_throughput := throughput_of 10000 57 |}.
Proof.
  split.
  - apply (proj1 (proj2 (select_policy 2 (throughput_of 10000 58)
                           {| best_threads := 1;
                              best_throughput := throughput_of 10000 57 |}))).
    + vm_compute. discriminate.
    + cbn. lia.
    + vm_compute. discriminate.
  - apply (proj1 (proj2 (proj2 (select_policy 2 (throughput_of 10000 60)
                                  {| best_threads := 1;
                                     best_throughput := throughput_of 10000 57 |})))).
    + vm_compute. discriminate.
    + right. vm_compute. reflexivity.
Defined.

(** The values of the [double]s above. The quotient 10000 / 60 * 1000 is
    95% of 10000 / 57 * 1000 in exact arithmetic; the rounded product
    with 0.95 is above the rounded quotient. *)
Lemma select_on_doubles :
  Qred d1_05 = (4728779608739021 # 4503599627370496)%Q
  /\ Qred d0_95 = (4278419646001971 # 4503599627370496)%Q
  /\ Qred (throughput_of 10000 57) = (753503034385965 # 4294967296)%Q
  /\ Qred (throughput_of 10000 60) = (5726623061333333 # 34359738368)%Q
  /\ Qred (double_mul (throughput_of 10000 57) d0_95)
     = (2863311530666667 # 17179869184)%Q
  /\ ((10000 # 60) * 1000 == (10000 # 57) * 1000 * (95 # 100))%Q
  /\ (throughput_of 10000 60 < double_mul (throughput_of 10000 57) d0_95)%Q.
Proof. vm_compute. repeat split. Qed.

(** The second variant has no margin and no preference for more threads:
    a trial 1% better replaces the record, where the first variant keeps
    the recorded throughput; and where two threads are 2% slower than
    one its search ends and returns one thread. *)
Lemma select_v2_has_no_margin :
  select_v2 2 (101 # 1) {| best_threads := 1; best_throughput := 100 # 1 |}
  = Some {| best_threads := 2; best_throughput := 101 # 1 |}
  /\ select 2 (101 # 1) {| best_threads := 1; best_throughput := 100 # 1 |}
     = {| best_threads := 2; best_throughput := 100 # 1 |}
  /\ select_v2 2 (98 # 1) {| best_threads := 1; best_throughput := 100 # 1 |} = None
  /\ select 2 (98 # 1) {| best_threads := 1; best_throughput := 100 # 1 |}
     = {| best_threads := 2; best_throughput := 100 # 1 |}
  /\ result_of (autotune_threads_v2 Demo.flat) = Ok 1%N
  /\ trials (trace_of (autotune_threads_v2 Demo.flat)) = [1; 2]%N.
Proof. vm_compute. repeat split. Qed.

(** *** The schedule of trials *)








Lemma trials_app (tr1 tr2 : list event) :
  trials (tr1 ++ tr2) = trials tr1 ++ trials tr2.
Proof.
  induction tr1 as [| e tr1 IH]; [reflexivity |].
  destruct e; cbn; rewrite ?IH; reflexivity.
Qed.



(** The record after a first trial still names one thread. *)
Lemma select_first_trial (tp : Q) : best_threads (select 1 tp initial_best) = 1%N.
Proof.
  unfold select.
  destruct (negb (Qle_bool tp (double_mul (best_throughput initial_best) d1_05)));
    [reflexivity |].
  destruct ((best_threads initial_best <? 1)%N
            && Qle_bool (double_mul (best_throughput initial_best) d0_95) tp);
    reflexivity.
Qed.

(** Every run of the first autotuner on an initialized system. The
    singleton pool has the workers an earlier [resize] left in it, so
    the first [resize] of the search returns only on a pool that has
    none, and the second one never does. *)
Lemma autotune_threads_runs (plat : Platform) (sys : System) (max_threads : N) :
  is_initialized sys = true ->
  autotune_threads plat sys max_threads
  = if (ceiling plat max_threads =? 0)%N then ([], Ok 1%N)
    else if 0 <? workers (pool sys) then ([EvResize 1], NeverReturns)
    else if (thread_limit plat =? 0)%N then ([EvResize 1], Ok 1%N)
    else if (ceiling plat max_threads =? 1)%N then ([EvResize 1; EvTrial 1], Ok 1%N)
    else ([EvResize 1; EvTrial 1; EvResize 2], NeverReturns).
Proof.
  intros Hinit. unfold autotune_threads. rewrite Hinit. cbn [negb].
  set (c := ceiling plat max_threads).
  unfold autotune_fuel. cbn [autotune_loop].
  destruct (c =? 0)%N eqn:Hc0.
  { apply N.eqb_eq in Hc0. rewrite Hc0. reflexivity. }
  apply N.eqb_neq in Hc0.
  assert (H1 : (1 <=? c)%N = true) by (apply N.leb_le; lia).
  rewrite H1. unfold autotune_trial at 1, resize at 1.
  cbn [N.eqb tell bind ret app].
  destruct (0 <? workers (pool sys)); [reflexivity |].
  destruct (thread_limit plat =? 0)%N eqn:Hl0.
  { apply N.eqb_eq in Hl0. rewrite Hl0. reflexivity. }
  apply N.eqb_neq in Hl0.
  assert (Hl1 : (1 <=? thread_limit plat)%N = true) by (apply N.leb_le; lia).
  rewrite Hl1. cbn [tell bind ret app try_catch fst snd].
  change (next_threads 1) with 2%N.
  destruct (c =? 1)%N eqn:Hc1.
  - apply N.eqb_eq in Hc1. rewrite Hc1. cbn [N.leb N.compare Pos.compare Pos.compare_cont].
    cbn [ret bind app]. rewrite select_first_trial. reflexivity.
  - apply N.eqb_neq in Hc1.
    assert (H2 : (2 <=? c)%N = true) by (apply N.leb_le; lia).
    rewrite H2. reflexivity.
Qed.






(** ** The loader *)

Module LoaderProperties.
Import Loader.
Open Scope Z_scope.

Lemma to_size_t_nonneg (x : Z) : is_int x -> 0 <= x -> to_size_t x = x.
Proof.
  unfold is_int, to_size_t, size_t_max. intros Hx H0.
  change (2 ^ 31) with 2147483648 in Hx.
  change (2 ^ 64) with 18446744073709551616.
  apply Z.mod_small. lia.
Qed.

(** For an offset and a length that are not negative the bounds check
    is exact: the bytes are copied exactly when the requested range
    lies in the mapped region, and they are read inside it. *)
Lemma read_swe_file_nonnegative (ld : loader) (base : Z) (fname : string)
      (offset length : Z) :
  swevid_data ld = Some base ->
  well_mapped ld ->
  has_swevid_extension fname = true ->
  is_int offset -> is_int length ->
  0 <= offset -> 0 <= length ->
  (offset + length <= swevid_size ld ->
   read_swe_file ld fname offset length
   = (0, Some {| src := base + offset; len := length |})
   /\ in_region ld {| src := base + offset; len := length |})
  /\ (swevid_size ld < offset + length ->
      read_swe_file ld fname offset length = (-2, None)).
Proof.
  intros Hdata Hmap Hext Hio Hil Ho Hl.
  unfold well_mapped in Hmap. rewrite Hdata in Hmap.
  unfold read_swe_file, in_region. rewrite Hdata, Hext. cbn [negb].
  rewrite !to_size_t_nonneg by assumption.
  unfold is_int in Hio, Hil. unfold size_t_max in *.
  change (2 ^ 31) with 2147483648 in Hio, Hil.
  change (2 ^ 64) with 18446744073709551616 in *.
  rewrite (Z.mod_small (offset + length)) by lia.
  split; intros Hrange.
  - assert (Hb : (swevid_size ld <? offset + length) = false) by (apply Z.ltb_ge; lia).
    rewrite Hb. rewrite (Z.mod_small (base + offset)) by lia.
    split; [reflexivity |]. cbn. lia.
  - assert (Hb : (swevid_size ld <? offset + length) = true) by (apply Z.ltb_lt; lia).
    rewrite Hb. reflexivity.
Qed.

(** Without a mapping, or for another file name, nothing is read. *)
Lemma read_swe_file_refused (ld : loader) (fname : string) (offset length : Z) :
  swevid_data ld = None \/ has_swevid_extension fname = false ->
  read_swe_file ld fname offset length = (-1, None).
Proof.
  intros [H | H]; unfold read_swe_file.
  - rewrite H. reflexivity.
  - rewrite H. destruct (swevid_data ld); reflexivity.
Qed.

(** C9. With a file mapped and a name ending in ".swevid", the call
    with offset -1 and length 1 passes the bounds check, because the
    sum of the two converted values wraps around to 0: it returns 0 and
    copies the byte that precedes the mapped region, although the
    requested range is not inside the region. *)
Theorem read_swe_file_negative_offset (ld : loader) (base : Z) (fname : string) :
  swevid_data ld = Some base ->
  well_mapped ld ->
  has_swevid_extension fname = true ->
  read_swe_file ld fname (-1) 1 = (0, Some {| src := base - 1; len := 1 |})
  /\ ~ in_region ld {| src := base - 1; len := 1 |}
  /\ ~ range_in_file ld (-1) 1
  /\ is_int (-1) /\ is_int 1.
Proof.
  intros Hdata Hmap Hext.
  unfold well_mapped in Hmap. rewrite Hdata in Hmap.
  unfold size_t_max in Hmap.
  change (2 ^ 64) with 18446744073709551616 in Hmap.
  assert (Hint : forall x, - 2147483648 <= x < 2147483648 -> is_int x).
  { intros x Hx. unfold is_int. change (2 ^ 31) with 2147483648. exact Hx. }
  split; [| split; [| split; [| split; apply Hint; lia]]].
  - unfold read_swe_file. rewrite Hdata, Hext. cbn [negb].
    change (to_size_t (-1)) with 18446744073709551615.
    change (to_size_t 1) with 1.
    change ((18446744073709551615 + 1) mod size_t_max) with 0.
    assert (Hb : (swevid_size ld <? 0) = false) by (apply Z.ltb_ge; lia).
    rewrite Hb. unfold size_t_max.
    change (2 ^ 64) with 18446744073709551616.
    replace (base + 18446744073709551615)
      with (base - 1 + 1 * 18446744073709551616) by lia.
    rewrite Z.mod_add by lia. rewrite Z.mod_small by lia. reflexivity.
  - unfold in_region. rewrite Hdata. cbn. lia.
  - unfold range_in_file. lia.
Qed.

Lemma read_swe_file_negative_offset_witness :
  read_swe_file Demo.mapped "sepl_18.swevid" (-1) 1
  = (0, Some {| src := 4096 - 1; len := 1 |})
  /\ ~ in_region Demo.mapped {| src := 4096 - 1; len := 1 |}
  /\ ~ range_in_file Demo.mapped (-1) 1
  /\ is_int (-1) /\ is_int 1.
Proof.
  apply (@read_swe_file_negative_offset Demo.mapped 4096 "sepl_18.swevid").
  - reflexivity.
  - cbn. unfold size_t_max. change (2 ^ 64) with 18446744073709551616. lia.
  - reflexivity.
Defined.

(** A negative length defeats the check in the same way: 2^64 - 5
    bytes are copied from a file of 100. *)
Lemma read_swe_file_negative_length :
  read_swe_file Demo.mapped "sepl_18.swevid" 10 (-5)
  = (0, Some {| src := 4106; len := 18446744073709551611 |}).
Proof. vm_compute. reflexivity. Qed.

End LoaderProperties.

(** ** The thread pool *)

Module PoolProperties.
Import Pool.

Lemma set_nth_length {A} (i : nat) (x : A) (l : list A) :
  length (set_nth i x l) = length l.
Proof.
  revert i. induction l as [| y l IH]; intros [| i]; cbn; try reflexivity.
  rewrite IH. reflexivity.
Qed.

Lemma set_nth_same {A} (i : nat) (x y : A) (l : list A) :
  nth_error l i = Some y -> nth_error (set_nth i x l) i = Some x.
Proof.
  revert i. induction l as [| z l IH]; intros [| i]; cbn; try discriminate.
  - reflexivity.
  - apply IH.
Qed.

Lemma set_nth_Forall {A} (P : A -> Prop) (i : nat) (x : A) (l : list A) :
  P x -> Forall P l -> Forall P (set_nth i x l).
Proof.
  intros Hx. revert i. induction l as [| z l IH]; intros [| i] Hl; cbn.
  - constructor.
  - constructor.
  - inversion Hl; subst. constructor; assumption.
  - inversion Hl; subst. constructor; [assumption | apply IH; assumption].
Qed.

Lemma running_tasks_set_nth (i : nat) (w w' : worker) (ws : list worker) :
  nth_error ws i = Some w ->
  Permutation (running_tasks [w] ++ running_tasks (set_nth i w' ws))
              (running_tasks [w'] ++ running_tasks ws).
Proof.
  revert i. induction ws as [| x ws IH]; intros [| i] Hw; cbn in Hw; try discriminate.
  - inversion Hw; subst x. cbn [set_nth]. unfold running_tasks. cbn [flat_map].
    rewrite !app_nil_r, !app_assoc. apply Permutation_app_tail, Permutation_app_comm.
  - cbn [set_nth]. specialize (IH i Hw). unfold running_tasks in *. cbn [flat_map] in *.
    rewrite !app_nil_r in *. rewrite !app_assoc.
    rewrite (Permutation_app_comm _ (match x with Running t => [t] | _ => [] end)).
    rewrite (Permutation_app_comm (match w' with Running t => [t] | _ => [] end)
                                  (match x with Running t => [t] | _ => [] end)).
    rewrite <- !app_assoc. apply Permutation_app_head. exact IH.
Qed.

(** A step of a worker loses no task: what was queued, running or done
    before is queued, running or done after. *)
Lemma worker_keeps_tasks (i : nat) (s s' : state) :
  worker_step i s = Some s' -> Permutation (held s') (held s).
Proof.
  unfold worker_step, held. intros Hstep.
  destruct (nth_error (workers s) i) as [[| t |] |] eqn:Hw; try discriminate.
  - destruct (mutex_held s); [discriminate |].
    destruct (tasks s) as [| t q] eqn:Hq.
    + destruct (stop s); [| discriminate]. inversion Hstep; subst s'. cbn.
      rewrite Hq. apply Permutation_app_head, Permutation_app_tail.
      pose proof (@running_tasks_set_nth i Waiting Exited _ Hw) as Hp.
      cbn in Hp. exact Hp.
    + inversion Hstep; subst s'. cbn.
      apply Permutation_app_head.
      pose proof (@running_tasks_set_nth i Waiting (Running t) _ Hw) as Hp.
      cbn in Hp. rewrite Hp. cbn. apply Permutation_middle.
  - inversion Hstep; subst s'. cbn [executed workers tasks].
    rewrite <- app_assoc. apply Permutation_app_head. cbn [app].
    rewrite app_comm_cons. apply Permutation_app_tail.
    pose proof (@running_tasks_set_nth i (Running t) Waiting _ Hw) as Hp.
    cbn in Hp. exact Hp.
Qed.

(** A worker leaves its loop only from the test of line 122: the stop
    flag is set and the queue is empty. *)
Lemma worker_exits_when_drained (i : nat) (s s' : state) :
  worker_step i s = Some s' ->
  nth_error (workers s') i = Some Exited ->
  stop s = true /\ tasks s = [].
Proof.
  unfold worker_step. intros Hstep Hexit.
  destruct (nth_error (workers s) i) as [[| t |] |] eqn:Hw; try discriminate.
  - destruct (mutex_held s); [discriminate |].
    destruct (tasks s) as [| t q] eqn:Hq.
    + destruct (stop s); [split; reflexivity | discriminate].
    + inversion Hstep; subst s'. cbn in Hexit.
      rewrite (@set_nth_same _ i (Running t) _ _ Hw) in Hexit. discriminate.
  - inversion Hstep; subst s'. cbn in Hexit.
    rewrite (@set_nth_same _ i Waiting _ _ Hw) in Hexit. discriminate.
Qed.

(** [resize] and the destructor never touch the queue. *)
Lemma caller_keeps_queue (s s' : state) :
  caller_step s = Some s' -> tasks s' = tasks s /\ executed s' = executed s.
Proof.
  unfold caller_step. intros Hstep.
  destruct (call s) as [| n | n k | | k |]; try discriminate.
  - inversion Hstep; subst s'. split; reflexivity.
  - destruct (k <? length (workers s)).
    + destruct (joined s k); [| discriminate].
      inversion Hstep; subst s'. split; reflexivity.
    + inversion Hstep; subst s'. split; reflexivity.
  - inversion Hstep; subst s'. split; reflexivity.
  - destruct (k <? length (workers s)).
    + destruct (joined s k); [| discriminate].
      inversion Hstep; subst s'. split; reflexivity.
    + inversion Hstep; subst s'. split; reflexivity.
Qed.

(** Once the stop flag is set and the mutex is free, as in the
    destructor, a waiting worker can always go on: it takes the next
    task or, the queue being empty, it exits. *)
Lemma stopped_worker_goes_on (i : nat) (s : state) :
  stop s = true ->
  mutex_held s = false ->
  nth_error (workers s) i = Some Waiting ->
  exists s', worker_step i s = Some s'.
Proof.
  intros Hstop Hfree Hw. unfold worker_step. rewrite Hw, Hfree, Hstop.
  destruct (tasks s); eexists; reflexivity.
Qed.

Lemma blocked_in_resize_step (n : nat) (q : list task) (a : actor) (s s' : state) :
  blocked_in_resize n q s -> step a s = Some s' -> blocked_in_resize n q s'.
Proof.
  intros (Hcall & Hstop & Hq & Hne & Halive) Hstep.
  destruct a as [i |]; cbn in Hstep.
  - unfold worker_step in Hstep.
    destruct (nth_error (workers s) i) as [[| t |] |] eqn:Hw; try discriminate.
    + unfold mutex_held in Hstep. rewrite Hcall in Hstep. discriminate.
    + inversion Hstep; subst s'. unfold blocked_in_resize. cbn.
      repeat split; try assumption.
      * intros Hnil. apply Hne. apply length_zero_iff_nil.
        rewrite <- (@set_nth_length _ i Waiting (workers s)). rewrite Hnil. reflexivity.
      * apply set_nth_Forall; [discriminate | exact Halive].
  - unfold caller_step in Hstep. rewrite Hcall in Hstep.
    destruct (workers s) as [| w ws] eqn:Hws; [contradiction Hne; reflexivity |].
    cbn in Hstep. unfold joined in Hstep. rewrite Hws in Hstep. cbn in Hstep.
    inversion Halive; subst.
    destruct w; try discriminate. contradiction.
Qed.

Lemma blocked_in_resize_run (n : nat) (q : list task) (sched : list actor) :
  forall s, blocked_in_resize n q s -> blocked_in_resize n q (run sched s).
Proof.
  induction sched as [| a rest IH]; intros s Hs; [exact Hs |].
  cbn [run]. destruct (step a s) as [s' |] eqn:Hstep.
  - apply IH. exact (@blocked_in_resize_step n q a s s' Hs Hstep).
  - apply IH. exact Hs.
Qed.

(** C4. [resize] on a pool with live workers: once it has taken the
    mutex and set the stop flag (lines 52-53) it waits in [join] with
    the mutex held, and no worker can take a task or see the flag.
    Under every schedule from there on the queue stays as it was, so
    the tasks queued before the call are never executed, and [resize]
    never returns. *)
Theorem resize_never_drains (s s1 : state) (n : nat) (sched : list actor) :
  call s = ResizeEntered n ->
  workers s <> [] ->
  Forall (fun w => w <> Exited) (workers s) ->
  step Caller s = Some s1 ->
  tasks (run sched s1) = tasks s
  /\ call (run sched s1) = ResizeJoining n 0
  /\ forall t, In t (tasks s) -> In t (tasks (run sched s1)).
Proof.
  intros Hcall Hne Halive Hstep. cbn in Hstep. unfold caller_step in Hstep.
  rewrite Hcall in Hstep. inversion Hstep; subst s1.
  assert (Hb : blocked_in_resize n (tasks s)
                 {| workers := workers s; tasks := tasks s; stop := true;
                    executed := executed s; call := ResizeJoining n 0 |}).
  { unfold blocked_in_resize. cbn. repeat split; assumption. }
  destruct (@blocked_in_resize_run n (tasks s) sched _ Hb) as (Hc & _ & Hq & _ & _).
  split; [exact Hq | split; [exact Hc |]].
  intros t Ht. rewrite Hq. exact Ht.
Qed.

Lemma resize_never_drains_witness :
  tasks (run Demo.schedule Demo.joining) = tasks Demo.resizing
  /\ call (run Demo.schedule Demo.joining) = ResizeJoining 1 0
  /\ forall t, In t (tasks Demo.resizing)
               -> In t (tasks (run Demo.schedule Demo.joining)).
Proof.
  apply (@resize_never_drains Demo.resizing Demo.joining 1 Demo.schedule).
  - reflexivity.
  - discriminate.
  - repeat constructor. discriminate.
  - reflexivity.
Defined.

(** The same pool under the destructor, which releases the mutex before
    it joins: the queued task is executed and the worker is joined. *)
Lemma destructor_drains :
  let s := run [Caller; Worker 0; Worker 0; Worker 0; Caller; Caller] Demo.destroying in
  executed s = [7] /\ tasks s = [] /\ call s = DtorDone /\ workers s = [Exited].
Proof. vm_compute. repeat split. Qed.

(** With the worker scheduled first the task does run, but [resize]
    still never returns. *)
Lemma resize_blocks_after_task :
  let s := run [Worker 0; Worker 0; Caller; Worker 0; Caller; Worker 0] Demo.resizing in
  executed s = [7] /\ call s = ResizeJoining 1 0
  /\ step Caller s = None /\ step (Worker 0) s = None.
Proof. vm_compute. repeat split. Qed.

(** Once every worker has left its loop, nothing is taken from the
    queue any more: the destructor goes on to its end and the queue and
    the list of executed tasks stay as they are. *)
Lemma exited_pool_run (sched : list actor) :
  forall s,
    in_destructor s ->
    Forall (fun w => w = Exited) (workers s) ->
    tasks (run sched s) = tasks s
    /\ executed (run sched s) = executed s
    /\ in_destructor (run sched s).
Proof.
  induction sched as [| a rest IH]; intros s Hdtor Hexited; [repeat split; exact Hdtor |].
  cbn [run]. destruct a as [i |].
  - assert (Hnone : step (Worker i) s = None).
    { cbn [step]. unfold worker_step.
      destruct (nth_error (workers s) i) as [w |] eqn:Hw; [| reflexivity].
      rewrite Forall_forall in Hexited.
      rewrite (Hexited w (nth_error_In _ _ Hw)). reflexivity. }
    rewrite Hnone. apply IH; assumption.
  - cbn [step]. unfold caller_step. unfold in_destructor in Hdtor.
    destruct (call s) as [| n | n k | | k |] eqn:Hcall; try contradiction.
    + destruct (IH {| workers := workers s; tasks := tasks s; stop := true;
                      executed := executed s; call := DtorJoining 0 |})
        as (Ht & He & Hd); [exact I | exact Hexited |].
      repeat split; assumption.
    + destruct (k <? length (workers s)).
      * destruct (joined s k).
        -- destruct (IH {| workers := workers s; tasks := tasks s; stop := stop s;
                           executed := executed s; call := DtorJoining (S k) |})
             as (Ht & He & Hd); [exact I | exact Hexited |].
           repeat split; assumption.
        -- apply IH; [unfold in_destructor; rewrite Hcall; exact I | exact Hexited].
      * destruct (IH {| workers := workers s; tasks := tasks s; stop := stop s;
                        executed := executed s; call := DtorDone |})
          as (Ht & He & Hd); [exact I | exact Hexited |].
        repeat split; assumption.
    + apply IH; [unfold in_destructor; rewrite Hcall; exact I | exact Hexited].
Qed.

(** C8, as amended. A call of [ThreadPool::enqueue] of the first variant
    waits while [resize] holds the mutex; once it has the mutex it
    refuses the task with "Enqueue on stopped ThreadPool", without
    queueing it, if the stop flag is set, as it is from the moment the
    destructor has set it, and queues the task otherwise.
    [ParabolaThreadPool::submit] and [enqueue] of the second variant
    make no test: once they have the mutex they queue the task, whatever
    the flag. *)
Theorem enqueue_rejects_when_stopped (t : task) (s : state) :
  (mutex_held s = true -> enqueue t s = None /\ submit t s = None)
  /\ (mutex_held s = false -> stop s = true ->
      enqueue t s = Some (Throw EnqueueOnStopped))
  /\ (in_destructor s -> stop s = true ->
      enqueue t s = Some (Throw EnqueueOnStopped))
  /\ (mutex_held s = false -> stop s = false ->
      exists s', enqueue t s = Some (Ok s') /\ tasks s' = tasks s ++ [t])
  /\ (mutex_held s = false ->
      exists s', submit t s = Some (Ok s') /\ tasks s' = tasks s ++ [t]
                 /\ stop s' = stop s /\ workers s' = workers s
                 /\ executed s' = executed s /\ call s' = call s).
Proof.
  unfold enqueue, submit. split; [| split; [| split; [| split]]].
  - intros Hheld. rewrite Hheld. split; reflexivity.
  - intros Hfree Hstop. rewrite Hfree, Hstop. reflexivity.
  - intros Hdtor Hstop.
    assert (Hfree : mutex_held s = false).
    { unfold in_destructor in Hdtor. unfold mutex_held.
      destruct (call s); try contradiction; reflexivity. }
    rewrite Hfree, Hstop. reflexivity.
  - intros Hfree Hstop. rewrite Hfree, Hstop. eexists. split; reflexivity.
  - intros Hfree. rewrite Hfree. eexists. repeat split.
Qed.

(** The pool [Demo.destroying] once its destructor has set the flag:
    [enqueue] refuses task 8. *)
Lemma enqueue_rejects_when_stopped_witness :
  run [Caller] Demo.destroying = Demo.stopping
  /\ enqueue 8 Demo.stopping = Some (Throw EnqueueOnStopped).
Proof.
  split; [reflexivity |].
  apply (proj1 (proj2 (proj2 (@enqueue_rejects_when_stopped 8 Demo.stopping))));
    [exact I | reflexivity].
Defined.

(** The same pool once the worker has run the queued task and left its
    loop, the destructor being about to join it: stop has been
    requested and draining has completed. [submit] reports no error and
    queues task 8; under every schedule from there on the task stays in
    the queue and is never run, and the destructor completes. *)
Lemma submit_accepts_after_stop :
  run [Caller; Worker 0; Worker 0; Worker 0] Demo.destroying = Demo.drained
  /\ stop Demo.drained = true
  /\ tasks Demo.drained = []
  /\ enqueue 8 Demo.drained = Some (Throw EnqueueOnStopped)
  /\ exists s',
      submit 8 Demo.drained = Some (Ok s')
      /\ tasks s' = [8]
      /\ (forall sched, tasks (run sched s') = [8] /\ executed (run sched s') = [7])
      /\ call (run [Caller; Caller] s') = DtorDone.
Proof.
  split; [reflexivity |]. split; [reflexivity |]. split; [reflexivity |].
  split; [reflexivity |].
  eexists. split; [reflexivity |]. split; [reflexivity |]. split; [| reflexivity].
  intros sched.
  destruct (@exited_pool_run sched
              {| workers := [Exited]; tasks := [8]; stop := true;
                 executed := [7]; call := DtorJoining 0 |})
    as (Ht & He & _); [exact I | repeat constructor |].
  split; assumption.
Qed.

End PoolProperties.

(** * Further properties of the code *)

(** ** The batch executor and the initialization *)

Lemma full_but_last_count {A} (step : nat) (slices : list (list A)) :
  0 < step ->
  full_but_last step slices ->
  length slices = (length (concat slices) + step - 1) / step.
Proof.
  intros Hstep Hfull.
  assert (Hbounds : slices <> [] ->
                    step * (length slices - 1) < length (concat slices)
                    /\ length (concat slices) <= step * length slices).
  { induction slices as [| s rest IH]; [intros H; contradiction H; reflexivity |].
    intros _. cbn [concat length]. rewrite length_app.
    cbn [full_but_last] in Hfull. destruct rest as [| r rest'].
    - cbn. nia.
    - destruct Hfull as [Hs Hrest].
      destruct (IH Hrest) as [Hlow Hhigh]; [discriminate |].
      cbn [length] in *. nia. }
  destruct slices as [| s rest].
  - cbn. symmetry. apply Nat.div_small. lia.
  - destruct Hbounds as [Hlow Hhigh]; [discriminate |].
    apply (Nat.div_unique _ step _
             (length (concat (s :: rest)) + step - 1 - step * length (s :: rest))).
    + cbn [length] in *. nia.
    + cbn [length] in *. nia.
Qed.

Section BatchFurther.

Variable double : Type.
Variable SEFLG_SPEED : Z.
Variable swe_calc_ut : double -> Z -> Z -> Z * list double * string.

Local Abbreviation request := (PlanetRequest double).
Local Abbreviation calc := (calc_one SEFLG_SPEED swe_calc_ut).
Local Abbreviation batch_call := (compute_batch SEFLG_SPEED swe_calc_ut).

(** X2. On a running pool the number of tasks [compute_batch] submits
    for a batch of n requests is n divided by the slice size, rounded
    up. *)
Theorem compute_batch_task_count (sys : System) (requests : list request) :
  is_initialized sys = true ->
  0 < workers (pool sys) ->
  stop (pool sys) = false ->
  length (enqueued (trace_of (batch_call sys requests)))
  = (length requests
     + target_batch_size (length requests) (workers (pool sys)) - 1)
    / target_batch_size (length requests) (workers (pool sys)).
Proof.
  intros Hinit Hworkers Hstop.
  destruct (@compute_batch_with_run double (slice_task SEFLG_SPEED swe_calc_ut)
              sys requests Hinit Hworkers Hstop)
    as (slices & _ & Hcat & Hfull & Hrun).
  unfold compute_batch. rewrite Hrun, concat_slice_task, Hcat, length_map, Nat.eqb_refl.
  unfold trace_of. cbn [fst]. rewrite enqueued_enqueues, length_map.
  pose proof (target_batch_size_bounds (length requests) (workers (pool sys))) as Hb.
  unfold min_batch_size in Hb.
  rewrite (full_but_last_count (step := target_batch_size (length requests)
                                          (workers (pool sys))) slices)
    by (lia || exact Hfull).
  rewrite Hcat. reflexivity.
Qed.

(** X3. Batching is transparent: the results of two batches submitted
    one after the other, concatenated, are the results of the
    concatenated batch. *)
Theorem compute_batch_app (sys : System) (first second : list request) :
  is_initialized sys = true ->
  0 < workers (pool sys) ->
  stop (pool sys) = false ->
  exists r1 r2,
    result_of (batch_call sys first) = Ok r1
    /\ result_of (batch_call sys second) = Ok r2
    /\ result_of (batch_call sys (first ++ second)) = Ok (r1 ++ r2).
Proof.
  intros Hinit Hworkers Hstop.
  exists (map calc first), (map calc second).
  rewrite !compute_batch_run by assumption.
  rewrite map_app. repeat split.
Qed.

(** X4. The two variants of [compute_batch] give the same results for
    the same batch, whatever the pool of the first and the thread count
    the tuning pass of the second settles on. *)
Theorem compute_batch_variants_agree
        (sys : System) (plat : Platform) (requests : list request) :
  is_initialized sys = true ->
  0 < workers (pool sys) ->
  stop (pool sys) = false ->
  tuning_ends plat ->
  result_of (batch_call sys requests)
  = result_of (compute_batch_v2 SEFLG_SPEED swe_calc_ut plat requests).
Proof.
  intros Hinit Hworkers Hstop Hplat.
  rewrite compute_batch_run, compute_batch_v2_run by assumption. reflexivity.
Qed.

(** X5. On a pool that has no worker, [initialize] with a validation
    call that succeeds and a thread count the platform can create (the
    given one, or the hardware concurrency when it is 0) leaves a
    system with exactly that many workers, on which every batch is
    answered in full and in order. *)
Theorem initialize_then_compute_batch
        (plat : Platform) (probe : Z) (thread_count : N) (sys : System)
        (requests : list request) :
  workers (pool sys) = 0 ->
  (0 <= probe)%Z ->
  (1 <= (if (thread_count =? 0)%N then hardware_concurrency plat else thread_count)
   <= thread_limit plat)%N ->
  exists sys',
    result_of (initialize plat probe thread_count sys) = Ok sys'
    /\ is_initialized sys' = true
    /\ workers (pool sys')
       = N.to_nat (if (thread_count =? 0)%N then hardware_concurrency plat
                   else thread_count)
    /\ result_of (batch_call sys' requests) = Ok (map calc requests).
Proof.
  intros Hempty Hprobe Htarget.
  set (n := if (thread_count =? 0)%N then hardware_concurrency plat else thread_count) in *.
  assert (Hp : (probe <? 0)%Z = false) by (apply Z.ltb_ge; exact Hprobe).
  assert (Hnz : (n =? 0)%N = false) by (apply N.eqb_neq; lia).
  assert (Hle : (n <=? thread_limit plat)%N = true) by (apply N.leb_le; lia).
  exists {| is_initialized := true;
            pool := {| workers := N.to_nat n; stop := false |} |}.
  split; [| split; [reflexivity | split; [reflexivity |]]].
  - unfold initialize, initialize_swiss_ephemeris, resize. fold n.
    rewrite Hnz, Hle.
    destruct (is_initialized sys) eqn:Hinit; [| rewrite Hp];
      cbn [bind ret tell pool is_initialized app]; rewrite Hempty;
      cbn; rewrite ?Hinit; reflexivity.
  - apply compute_batch_run; cbn; [reflexivity | lia | reflexivity].
Qed.

(** X6. When the validation call fails on a system that is not
    initialized, [initialize] logs the error and throws without
    touching the pool, and the system goes on refusing every batch with
    "Swiss Ephemeris not initialized". *)
Theorem initialize_validation_failure
        (plat : Platform) (probe : Z) (thread_count : N) (sys : System)
        (requests : list request) :
  is_initialized sys = false ->
  (probe < 0)%Z ->
  initialize plat probe thread_count sys = ([EvLogError], Throw EphemerisInitFailed)
  /\ batch_call sys requests = ([], Throw NotInitialized).
Proof.
  intros Hinit Hprobe. apply Z.ltb_lt in Hprobe. split.
  - unfold initialize, initialize_swiss_ephemeris. rewrite Hinit, Hprobe. reflexivity.
  - unfold compute_batch, compute_batch_with. rewrite Hinit. reflexivity.
Qed.

(** X7. On a pool that has a worker, as the singleton pool has on a
    platform that reports its concurrency, and as it has after an
    [initialize] that asked for threads, [initialize] never returns:
    once the ephemeris is validated (or was, by an earlier call) it is
    stuck in its [resize]. *)
Theorem initialize_on_live_pool
        (plat : Platform) (probe : Z) (thread_count : N) (sys : System) :
  0 < workers (pool sys) ->
  is_initialized sys = true \/ (0 <= probe)%Z ->
  initialize plat probe thread_count sys
  = ([EvResize (if (thread_count =? 0)%N then hardware_concurrency plat
                else thread_count)],
     NeverReturns).
Proof.
  intros Hlive Hvalid. apply Nat.ltb_lt in Hlive.
  unfold initialize, initialize_swiss_ephemeris, resize.
  set (n := if (thread_count =? 0)%N then hardware_concurrency plat else thread_count).
  assert (Hn : (if (n =? 0)%N then hardware_concurrency plat else n) = n).
  { subst n. destruct (thread_count =? 0)%N eqn:Htc.
    - destruct (hardware_concurrency plat =? 0)%N eqn:Hhw; reflexivity.
    - rewrite Htc. reflexivity. }
  rewrite Hn.
  destruct (is_initialized sys) eqn:Hinit.
  - cbn [bind ret tell pool app]. rewrite Hlive. reflexivity.
  - destruct Hvalid as [Hvalid | Hprobe]; [discriminate |].
    apply Z.ltb_ge in Hprobe. rewrite Hprobe.
    cbn [bind ret tell pool app]. rewrite Hlive. reflexivity.
Qed.

End BatchFurther.

Lemma compute_batch_task_count_witness :
  length (enqueued (trace_of (compute_batch Demo.flag Demo.calc
                                            (Demo.ready 4) (Demo.batch 45))))
  = (length (Demo.batch 45) + target_batch_size (length (Demo.batch 45)) 4 - 1)
    / target_batch_size (length (Demo.batch 45)) 4.
Proof.
  apply (@compute_batch_task_count Z Demo.flag Demo.calc (Demo.ready 4) (Demo.batch 45)).
  - reflexivity.
  - cbn. lia.
  - reflexivity.
Defined.

Lemma compute_batch_app_witness :
  exists r1 r2,
    result_of (compute_batch Demo.flag Demo.calc (Demo.ready 2) (Demo.batch 12)) = Ok r1
    /\ result_of (compute_batch Demo.flag Demo.calc (Demo.ready 2) (Demo.batch 7)) = Ok r2
    /\ result_of (compute_batch Demo.flag Demo.calc (Demo.ready 2)
                                (Demo.batch 12 ++ Demo.batch 7))
       = Ok (r1 ++ r2).
Proof.
  apply (@compute_batch_app Z Demo.flag Demo.calc (Demo.ready 2)
           (Demo.batch 12) (Demo.batch 7)).
  - reflexivity.
  - cbn. lia.
  - reflexivity.
Defined.

Lemma compute_batch_variants_agree_witness :
  result_of (compute_batch Demo.flag Demo.calc (Demo.ready 4) (Demo.batch 40))
  = result_of (compute_batch_v2 Demo.flag Demo.calc Sample.wide (Demo.batch 40)).
Proof.
  apply (@compute_batch_variants_agree Z Demo.flag Demo.calc
           (Demo.ready 4) Sample.wide (Demo.batch 40)).
  - reflexivity.
  - cbn. lia.
  - reflexivity.
  - exists 9%N. exact wide_first_flat_trial.
Defined.

(** The singleton pool of a machine that reports no concurrency has no
    worker; [initialize] gives it four. *)
Lemma initialize_then_compute_batch_witness :
  exists sys',
    result_of (initialize Demo.unknown_cores 0 4 (fresh_system Demo.unknown_cores))
    = Ok sys'
    /\ is_initialized sys' = true
    /\ workers (pool sys')
       = N.to_nat (if (4 =? 0)%N then hardware_concurrency Demo.unknown_cores else 4%N)
    /\ result_of (compute_batch Demo.flag Demo.calc sys' (Demo.batch 40))
       = Ok (map (calc_one Demo.flag Demo.calc) (Demo.batch 40)).
Proof.
  apply (@initialize_then_compute_batch Z Demo.flag Demo.calc
           Demo.unknown_cores 0%Z 4%N (fresh_system Demo.unknown_cores) (Demo.batch 40)).
  - reflexivity.
  - lia.
  - cbn. lia.
Defined.

Lemma initialize_validation_failure_witness :
  initialize Demo.machine (-1) 4 Sample.uninitialized
  = ([EvLogError], Throw EphemerisInitFailed)
  /\ compute_batch Demo.flag Demo.calc Sample.uninitialized (Demo.batch 3)
     = ([], Throw NotInitialized).
Proof.
  apply (@initialize_validation_failure Z Demo.flag Demo.calc Demo.machine
           (-1)%Z 4%N Sample.uninitialized (Demo.batch 3)).
  - reflexivity.
  - lia.
Defined.

(** The first [initialize] on a machine with four cores, and a second
    one on the pool that a first one left with four workers. *)
Lemma initialize_on_live_pool_witness :
  initialize Demo.machine 0 0 (fresh_system Demo.machine)
  = ([EvResize 4], NeverReturns)
  /\ initialize Demo.unknown_cores (-1) 2 (Demo.ready 4)
     = ([EvResize 2], NeverReturns).
Proof.
  split.
  - apply (@initialize_on_live_pool Demo.machine 0%Z 0%N (fresh_system Demo.machine)).
    + cbn. lia.
    + right. lia.
  - apply (@initialize_on_live_pool Demo.unknown_cores (-1)%Z 2%N (Demo.ready 4)).
    + cbn. lia.
    + left. reflexivity.
Defined.

(** ** The autotuners *)

(** X8. Every run of the first autotuner on an initialized system.
    With a ceiling of 0 no trial is run and the value is 1. Otherwise
    the search opens its first trial with [resize(1)], which never
    returns on a pool that has a worker; on a pool without workers it
    runs the trial with one thread (or, where no thread can be created,
    ends with the value 1), and then returns 1 if the ceiling is 1 and
    is stuck in [resize(2)] if it is higher. *)
Theorem autotune_threads_run (plat : Platform) (sys : System) (max_threads : N) :
  is_initialized sys = true ->
  (ceiling plat max_threads = 0%N ->
   autotune_threads plat sys max_threads = ([], Ok 1%N))
  /\ ((1 <= ceiling plat max_threads)%N ->
      0 < workers (pool sys) ->
      autotune_threads plat sys max_threads = ([EvResize 1], NeverReturns))
  /\ ((1 <= ceiling plat max_threads)%N ->
      workers (pool sys) = 0 ->
      thread_limit plat = 0%N ->
      autotune_threads plat sys max_threads = ([EvResize 1], Ok 1%N))
  /\ (ceiling plat max_threads = 1%N ->
      workers (pool sys) = 0 ->
      (1 <= thread_limit plat)%N ->
      autotune_threads plat sys max_threads = ([EvResize 1; EvTrial 1], Ok 1%N))
  /\ ((2 <= ceiling plat max_threads)%N ->
      workers (pool sys) = 0 ->
      (1 <= thread_limit plat)%N ->
      autotune_threads plat sys max_threads
      = ([EvResize 1; EvTrial 1; EvResize 2], NeverReturns)).
Proof.
  intros Hinit. rewrite (autotune_threads_runs plat sys max_threads Hinit).
  split; [| split; [| split; [| split]]].
  - intros Hc. rewrite Hc. reflexivity.
  - intros Hc Hlive.
    assert (Hc0 : (ceiling plat max_threads =? 0)%N = false) by (apply N.eqb_neq; lia).
    apply Nat.ltb_lt in Hlive. rewrite Hc0, Hlive. reflexivity.
  - intros Hc Hempty Hlimit.
    assert (Hc0 : (ceiling plat max_threads =? 0)%N = false) by (apply N.eqb_neq; lia).
    rewrite Hc0, Hempty, Hlimit. reflexivity.
  - intros Hc Hempty Hlimit.
    assert (Hl0 : (thread_limit plat =? 0)%N = false) by (apply N.eqb_neq; lia).
    rewrite Hc, Hempty, Hl0. reflexivity.
  - intros Hc Hempty Hlimit.
    assert (Hc0 : (ceiling plat max_threads =? 0)%N = false) by (apply N.eqb_neq; lia).
    assert (Hc1 : (ceiling plat max_threads =? 1)%N = false) by (apply N.eqb_neq; lia).
    assert (Hl0 : (thread_limit plat =? 0)%N = false) by (apply N.eqb_neq; lia).
    rewrite Hc0, Hempty, Hl0, Hc1. reflexivity.
Qed.

(** On a machine with four cores, whose singleton pool has four
    workers, and on one that reports no concurrency, with a ceiling of
    16. *)
Lemma autotune_threads_run_witness :
  autotune_threads Demo.machine (Demo.ready 4) 0 = ([EvResize 1], NeverReturns)
  /\ autotune_threads Demo.unknown_cores (Demo.ready 0) 16
     = ([EvResize 1; EvTrial 1; EvResize 2], NeverReturns).
Proof.
  split.
  - apply (proj1 (proj2 (@autotune_threads_run Demo.machine (Demo.ready 4) 0%N
                           eq_refl))).
    + vm_compute. discriminate.
    + cbn. lia.
  - apply (proj2 (proj2 (proj2 (proj2 (@autotune_threads_run Demo.unknown_cores
                                         (Demo.ready 0) 16%N eq_refl))))).
    + vm_compute. discriminate.
    + reflexivity.
    + vm_compute. discriminate.
Defined.

(** The search of the second variant on a platform where every trial
    improves up to the thread limit: the pool of the next trial cannot
    be built, and the failure comes with threads already started. *)
Lemma autotune_loop_v2_climbs (plat : Platform) :
  climbs_to_limit plat ->
  forall (fuel : nat) (trial : N) (b : Best),
    (1 <= trial <= thread_limit plat + 1)%N ->
    best_throughput b = recorded_before plat trial ->
    N.to_nat (thread_limit plat + 1 - trial) < fuel ->
    autotune_loop_v2 fuel plat trial b
    = (flat_map trial_events
                (map N.of_nat (seq (N.to_nat trial)
                                   (N.to_nat (thread_limit plat + 1 - trial)))),
       NeverReturns).
Proof.
  intros (Hlow & Hhigh & Hgrow). unfold size_max in Hhigh.
  induction fuel as [| f IH]; intros trial b Htrial Hbest Hfuel; [lia |].
  cbn [autotune_loop_v2].
  destruct (N.eq_dec trial (thread_limit plat + 1)) as [-> | Hne].
  - unfold autotune_trial_v2, pool_create.
    assert (Hle : (thread_limit plat + 1 <=? thread_limit plat)%N = false)
      by (apply N.leb_gt; lia).
    assert (Hl0 : (thread_limit plat =? 0)%N = false) by (apply N.eqb_neq; lia).
    rewrite Hle, Hl0. cbn [bind try_catch].
    replace (thread_limit plat + 1 - (thread_limit plat + 1))%N with 0%N by lia.
    reflexivity.
  - rewrite autotune_trial_v2_runs by lia.
    unfold try_catch, select_v2. rewrite Hbest.
    assert (Hlt : (recorded_before plat trial < throughput plat trial)%Q)
      by (apply Hgrow; lia).
    apply Qle_bool_false in Hlt. rewrite Hlt. cbn [negb].
    assert (Hnext : ((trial + 1) mod size_max = trial + 1)%N).
    { apply N.mod_small. unfold size_max. lia. }
    rewrite Hnext.
    rewrite (IH (trial + 1)%N
                {| best_threads := trial; best_throughput := throughput plat trial |});
      [| lia | | lia].
    + replace (N.to_nat (trial + 1)) with (S (N.to_nat trial)) by lia.
      replace (N.to_nat (thread_limit plat + 1 - trial))
        with (S (N.to_nat (thread_limit plat + 1 - (trial + 1)))) by lia.
      generalize (N.to_nat (thread_limit plat + 1 - (trial + 1))). intros n.
      cbn [seq map flat_map]. rewrite N2Nat.id. reflexivity.
    + cbn [best_throughput]. unfold recorded_before.
      assert (H1 : (trial + 1 =? 1)%N = false) by (apply N.eqb_neq; lia).
      rewrite H1. f_equal. lia.
Qed.

Section TuningFurther.

Variable double : Type.
Variable SEFLG_SPEED : Z.
Variable swe_calc_ut : double -> Z -> Z -> Z * list double * string.

(** X27. Where the platform can create no thread, the tuning pass of the
    second variant keeps its initial count of 1 and the batch call
    throws when it builds its pool. Where every trial up to the thread
    limit measures more than the one before, the tuning pass goes on to
    a pool it cannot build: the failed constructor has started threads
    already, no handler is reached, and neither the tuning pass nor the
    batch call returns. *)
Theorem autotune_threads_v2_exhausts_threads
        (plat : Platform) (requests : list (PlanetRequest double)) :
  (thread_limit plat = 0%N ->
   autotune_threads_v2 plat = ([], Ok 1%N)
   /\ compute_batch_v2 SEFLG_SPEED swe_calc_ut plat requests
      = ([], Throw ThreadCreationFailed))
  /\ (climbs_to_limit plat ->
      autotune_threads_v2 plat
      = (flat_map trial_events (counts_to (thread_limit plat)), NeverReturns)
      /\ compute_batch_v2 SEFLG_SPEED swe_calc_ut plat requests
         = (flat_map trial_events (counts_to (thread_limit plat)), NeverReturns)).
Proof.
  split.
  - intros Hlimit.
    assert (Htune : autotune_threads_v2 plat = ([], Ok 1%N)).
    { unfold autotune_threads_v2. rewrite Hlimit. cbn [N.to_nat autotune_loop_v2].
      unfold autotune_trial_v2, pool_create. rewrite Hlimit. reflexivity. }
    split; [exact Htune |].
    unfold compute_batch_v2, compute_batch_v2_with. rewrite Htune.
    unfold pool_create. rewrite Hlimit. reflexivity.
  - intros Hclimb. pose proof Hclimb as (Hlow & Hhigh & _).
    assert (Htune : autotune_threads_v2 plat
                    = (flat_map trial_events (counts_to (thread_limit plat)),
                       NeverReturns)).
    { unfold autotune_threads_v2.
      rewrite (@autotune_loop_v2_climbs plat Hclimb
                 (S (N.to_nat (thread_limit plat))) 1%N initial_best);
        [| lia | reflexivity | lia].
      unfold counts_to.
      replace (N.to_nat (thread_limit plat + 1 - 1)) with (N.to_nat (thread_limit plat))
        by lia.
      reflexivity. }
    split; [exact Htune |].
    unfold compute_batch_v2, compute_batch_v2_with. rewrite Htune. reflexivity.
Qed.

End TuningFurther.

Lemma machine_climbs_to_limit : climbs_to_limit Demo.machine.
Proof.
  unfold climbs_to_limit. split; [cbn; lia |]. split; [vm_compute; reflexivity |].
  intros t Ht.
  assert (Hcases : t = 1%N \/ t = 2%N \/ t = 3%N \/ t = 4%N \/ t = 5%N
                   \/ t = 6%N \/ t = 7%N \/ t = 8%N) by (cbn in Ht; lia).
  repeat destruct Hcases as [-> | Hcases]; try subst t; reflexivity.
Qed.

(** A machine on which eight threads can be created and every thread
    more is faster. *)
Lemma autotune_threads_v2_exhausts_threads_witness :
  autotune_threads_v2 Demo.machine
  = (flat_map trial_events (counts_to (thread_limit Demo.machine)), NeverReturns)
  /\ compute_batch_v2 Demo.flag Demo.calc Demo.machine (Demo.batch 40)
     = (flat_map trial_events (counts_to (thread_limit Demo.machine)), NeverReturns).
Proof.
  apply (proj2 (@autotune_threads_v2_exhausts_threads Z Demo.flag Demo.calc
                  Demo.machine (Demo.batch 40))).
  exact machine_climbs_to_limit.
Defined.

(** X10. The second autotuner climbs: on a platform where the trial
    with k threads is the first that does not improve, it returns a
    thread count g of at least 1 such that the measured throughput
    grows strictly from 1 thread up to g, and such that one more thread
    measured no better (or not even the first trial measured a positive
    throughput). *)
Theorem autotune_threads_v2_peak (plat : Platform) (k : N) :
  first_flat_trial plat k ->
  exists tr g, autotune_threads_v2 plat = (tr, Ok g) /\ peak plat g.
Proof.
  intros Hk. pose proof Hk as (Hrange & Hmax & Hgrow & Hflat).
  exists (flat_map trial_events (counts_to k)), (N.max 1 (k - 1)).
  split; [apply autotune_threads_v2_run; exact Hk |].
  unfold peak. destruct (N.eq_dec k 1) as [-> | Hne].
  - change (N.max 1 (1 - 1)) with 1%N. cbn in Hflat.
    split; [lia | split; [right; reflexivity | split; [intros t Ht; lia |]]].
    intros _. right. split; [reflexivity | exact Hflat].
  - replace (N.max 1 (k - 1)) with (k - 1)%N by lia.
    split; [lia | split; [left; lia | split]].
    + intros t Ht. specialize (Hgrow (t + 1)%N ltac:(lia)).
      unfold recorded_before in Hgrow.
      assert (H1 : (t + 1 =? 1)%N = false) by (apply N.eqb_neq; lia).
      rewrite H1 in Hgrow. replace (t + 1 - 1)%N with t in Hgrow by lia. exact Hgrow.
    + intros _. left. unfold recorded_before in Hflat.
      assert (H1 : (k =? 1)%N = false) by (apply N.eqb_neq; lia).
      rewrite H1 in Hflat. replace (k - 1 + 1)%N with k by lia. exact Hflat.
Qed.

Lemma autotune_threads_v2_peak_witness :
  exists tr g, autotune_threads_v2 Sample.wide = (tr, Ok g) /\ peak Sample.wide g.
Proof.
  apply (@autotune_threads_v2_peak Sample.wide 9%N).
  exact wide_first_flat_trial.
Defined.

(** ** The test workload, the tools and the local pools *)

Lemma flat_map_rows {A} (row : nat -> list A) (width : nat) :
  (forall i, length (row i) = width) ->
  forall (count start : nat),
    length (flat_map row (seq start count)) = count * width
    /\ forall i j, i < count -> j < width ->
                   nth_error (flat_map row (seq start count)) (width * i + j)
                   = nth_error (row (start + i)) j.
Proof.
  intros Hwidth. induction count as [| count IH]; intros start.
  - split; [reflexivity | intros i j Hi; lia].
  - cbn [seq flat_map]. destruct (IH (S start)) as [Hlen Hnth]. split.
    + rewrite length_app, Hwidth, Hlen. reflexivity.
    + intros i j Hi Hj. destruct i as [| i].
      * rewrite Nat.mul_0_r, Nat.add_0_l, Nat.add_0_r.
        apply nth_error_app1. rewrite Hwidth. exact Hj.
      * rewrite nth_error_app2 by (rewrite Hwidth; nia).
        rewrite Hwidth.
        replace (width * S i + j - width) with (width * i + j) by nia.
        rewrite Hnth by lia. f_equal. f_equal. lia.
Qed.

Section ToolsProperties.

Variable double : Type.
Variable SEFLG_SPEED : Z.
Variable swe_calc_ut : double -> Z -> Z -> Z * list double * string.
Variable SE_SUN SE_MOON SE_MERCURY SE_VENUS SE_MARS : Z.
Variable SE_JUPITER SE_SATURN SE_URANUS SE_NEPTUNE SE_PLUTO : Z.
Variable minute_jd : nat -> double.

Local Abbreviation bodies :=
  (planets SE_SUN SE_MOON SE_MERCURY SE_VENUS SE_MARS
           SE_JUPITER SE_SATURN SE_URANUS SE_NEPTUNE SE_PLUTO).
Local Abbreviation workload :=
  (create_test_workload SE_SUN SE_MOON SE_MERCURY SE_VENUS SE_MARS
                        SE_JUPITER SE_SATURN SE_URANUS SE_NEPTUNE SE_PLUTO minute_jd).

(** X11. [create_test_workload(count)] has ten requests for each of
    [count] instants: the request at position 10 i + j is for instant i
    and for the j-th body of the array [planets]. With the default
    count it has the 10000 requests the autotuner slices. *)
Theorem create_test_workload_layout (count : nat) :
  length (workload count) = count * 10
  /\ (forall i j, i < count -> j < 10 ->
                  nth_error (workload count) (10 * i + j)
                  = Some {| jd := minute_jd i; ipl := nth j bodies 0%Z |})
  /\ N.of_nat (length (workload 1000)) = test_workload_size.
Proof.
  assert (Hrow : forall i,
             length (workload_row SE_SUN SE_MOON SE_MERCURY SE_VENUS SE_MARS
                                  SE_JUPITER SE_SATURN SE_URANUS SE_NEPTUNE SE_PLUTO
                                  minute_jd i) = 10)
    by (intros i; reflexivity).
  split; [| split].
  - unfold create_test_workload.
    apply (proj1 (@flat_map_rows _ _ 10 Hrow count 0)).
  - intros i j Hi Hj. unfold create_test_workload.
    rewrite (proj2 (@flat_map_rows _ _ 10 Hrow count 0)) by assumption.
    cbn [Nat.add]. unfold workload_row. rewrite nth_error_map.
    rewrite (nth_error_nth' bodies 0%Z) by (cbn; exact Hj). reflexivity.
  - unfold create_test_workload.
    rewrite (proj1 (@flat_map_rows _ _ 10 Hrow 1000 0)). reflexivity.
Qed.

(** *** Pools local to one call *)

Lemma run_on_local_pool_returns {A B} (plat : Platform) (num_threads : N)
      (task : A -> B) (items : list A) :
  (1 <= num_threads <= thread_limit plat)%N ->
  run_on_local_pool plat num_threads task items
  = (EvPoolCreate num_threads :: map (fun _ => EvEnqueue 1) items ++ [EvPoolDestroy],
     Ok (Some (map task items))).
Proof.
  intros Hn. unfold run_on_local_pool, pool_create.
  assert (Hle : (num_threads <=? thread_limit plat)%N = true) by (apply N.leb_le; lia).
  assert (Hnz : (num_threads =? 0)%N = false) by (apply N.eqb_neq; lia).
  rewrite Hle. destruct items as [| x items]; [reflexivity |].
  rewrite Hnz. cbn. rewrite ?app_nil_r. reflexivity.
Qed.

(** X12. [parabola] with at least one thread returns [func] applied to
    every item, in the order of the items, after one submission per
    item to a pool it creates and destroys. *)
Theorem parabola_maps {T R} (plat : Platform) (g_parabola_thread_count : N)
        (items : list T) (func : T -> R) :
  (1 <= g_parabola_thread_count <= thread_limit plat)%N ->
  exists tr results,
    parabola plat g_parabola_thread_count items func = (tr, Ok (Some results))
    /\ answers func items results
    /\ enqueued tr = repeat 1 (length items)
    /\ last tr EvSweClose = EvPoolDestroy.
Proof.
  intros Hn. unfold parabola. rewrite run_on_local_pool_returns by exact Hn.
  eexists. eexists. split; [reflexivity |].
  split; [apply answers_map | split].
  - cbn [enqueued]. rewrite enqueued_app. cbn [enqueued]. rewrite app_nil_r.
    induction items as [| x items IH]; [reflexivity |]. cbn. rewrite IH. reflexivity.
  - rewrite app_comm_cons. apply last_last.
Qed.

(** X13. With a thread count of 0 a local pool has no worker: [parabola]
    and [compute_planets_threadpool] then never return for an input
    that is not empty, since the first future is never fulfilled, and
    the pool is never destroyed; for an empty input they return the
    empty result. *)
Theorem local_pool_without_threads {A B} (plat : Platform)
        (task : A -> B) (items : list A) :
  (items <> [] ->
   exists tr,
     run_on_local_pool plat 0 task items = (tr, Ok None) /\ ~ In EvPoolDestroy tr)
  /\ run_on_local_pool plat 0 task []
     = ([EvPoolCreate 0; EvPoolDestroy], Ok (Some [])).
Proof.
  assert (Hle : (0 <=? thread_limit plat)%N = true) by (apply N.leb_le; lia).
  split.
  - intros Hne. destruct items as [| x items]; [contradiction Hne; reflexivity |].
    unfold run_on_local_pool, pool_create. rewrite Hle. cbn.
    eexists. split; [reflexivity |].
    rewrite app_nil_r. intros [Hin | [Hin | Hin]]; try discriminate.
    apply in_map_iff in Hin. destruct Hin as (y & Hy & _). discriminate.
  - unfold run_on_local_pool, pool_create. rewrite Hle. reflexivity.
Qed.

(** X14. [compute_planets_threadpool] with at least one thread returns
    one result per request, in order and with the body number of the
    request; its [errcode] is 1 when the routine left an error text and
    0 when it left none, whatever the return code of the routine was. *)
Theorem compute_planets_threadpool_results
        (plat : Platform) (requests : list (PlanetRequest double)) (num_threads : N) :
  (1 <= num_threads <= thread_limit plat)%N ->
  exists results,
    result_of (compute_planets_threadpool SEFLG_SPEED swe_calc_ut plat requests num_threads)
    = Ok (Some results)
    /\ length results = length requests
    /\ forall i req,
        nth_error requests i = Some req ->
        exists r,
          nth_error results i = Some r
          /\ patch_ipl r = ipl req
          /\ patch_xx r = snd (fst (swe_calc_ut (jd req) (ipl req) SEFLG_SPEED))
          /\ (snd (swe_calc_ut (jd req) (ipl req) SEFLG_SPEED) = EmptyString ->
              patch_errcode r = 0%Z)
          /\ (snd (swe_calc_ut (jd req) (ipl req) SEFLG_SPEED) <> EmptyString ->
              patch_errcode r = 1%Z).
Proof.
  intros Hn. unfold compute_planets_threadpool.
  rewrite run_on_local_pool_returns by exact Hn.
  eexists. split; [reflexivity |]. split; [apply length_map |].
  intros i req Hreq. eexists. rewrite nth_error_map, Hreq. split; [reflexivity |].
  unfold patch_task.
  destruct (swe_calc_ut (jd req) (ipl req) SEFLG_SPEED) as [[ret coords] msg].
  cbn. repeat split.
  - intros ->. reflexivity.
  - intros Hmsg. destruct msg; [contradiction Hmsg; reflexivity | reflexivity].
Qed.

End ToolsProperties.

Lemma create_test_workload_layout_witness :
  nth_error (Sample.workload 3) (10 * 2 + 4)
  = Some {| jd := Sample.minute 2; ipl := nth 4 (planets 0 1 2 3 4 5 6 7 8 9) 0%Z |}.
Proof.
  apply (proj1 (proj2 (@create_test_workload_layout Z 0 1 2 3 4 5 6 7 8 9
                         Sample.minute 3))); lia.
Defined.

Lemma parabola_maps_witness :
  exists tr results,
    parabola Demo.machine 8 [1; 2; 3] (fun n => n * n) = (tr, Ok (Some results))
    /\ answers (fun n => n * n) [1; 2; 3] results
    /\ enqueued tr = repeat 1 (length [1; 2; 3])
    /\ last tr EvSweClose = EvPoolDestroy.
Proof.
  apply (@parabola_maps nat nat Demo.machine 8%N [1; 2; 3] (fun n => n * n)).
  cbn. lia.
Defined.

Lemma local_pool_without_threads_witness :
  exists tr,
    run_on_local_pool Demo.machine 0 (fun n => n * n) [1; 2; 3] = (tr, Ok None)
    /\ ~ In EvPoolDestroy tr.
Proof.
  apply (proj1 (@local_pool_without_threads nat nat Demo.machine
                  (fun n => n * n) [1; 2; 3])).
  discriminate.
Defined.

Lemma compute_planets_threadpool_results_witness :
  exists results,
    result_of (compute_planets_threadpool Demo.flag Demo.calc Demo.machine
                                          [Demo.request 3; Demo.request (-1)] 4)
    = Ok (Some results)
    /\ length results = 2
    /\ forall i req,
        nth_error [Demo.request 3; Demo.request (-1)] i = Some req ->
        exists r,
          nth_error results i = Some r
          /\ patch_ipl r = ipl req
          /\ patch_xx r = snd (fst (Demo.calc (jd req) (ipl req) Demo.flag))
          /\ (snd (Demo.calc (jd req) (ipl req) Demo.flag) = EmptyString ->
              patch_errcode r = 0%Z)
          /\ (snd (Demo.calc (jd req) (ipl req) Demo.flag) <> EmptyString ->
              patch_errcode r = 1%Z).
Proof.
  apply (@compute_planets_threadpool_results Z Demo.flag Demo.calc Demo.machine
           [Demo.request 3; Demo.request (-1)] 4%N).
  cbn. lia.
Defined.

(** *** The tuning executable *)

(** X15. [main] does nothing and exits with 0 unless its first argument
    is "--tune". With "--tune" it validates the ephemeris under the
    path of the second argument, "./ephe" when there is none, and
    tunes: it exits with 1 and prints nothing when the validation
    fails; otherwise, where the ceiling of the search (twice the
    hardware concurrency, on [unsigned int]) is 0, it prints the thread
    count 1 and exits with 0, and where the ceiling is not 0 and the
    pool has a worker it never ends. Further arguments, the
    configuration path among them, change nothing. *)
Theorem main_exit_code (probe_of : string -> Z) (plat : Platform) (sys : System)
        (prog arg1 : string) (rest : list string) :
  (arg1 <> "--tune"%string ->
   main probe_of plat sys (prog :: arg1 :: rest) = ([], Ok (0%Z, None)))
  /\ main probe_of plat sys [prog] = ([], Ok (0%Z, None))
  /\ (is_initialized sys = false ->
      (probe_of (hd "./ephe"%string rest) < 0)%Z ->
      main probe_of plat sys (prog :: "--tune"%string :: rest)
      = ([EvLogError], Ok (1%Z, None)))
  /\ (is_initialized sys = true \/ (0 <= probe_of (hd "./ephe"%string rest))%Z ->
      (ceiling plat 0 = 0%N ->
       main probe_of plat sys (prog :: "--tune"%string :: rest)
       = ([], Ok (0%Z, Some 1%N)))
      /\ (ceiling plat 0 <> 0%N ->
          0 < workers (pool sys) ->
          main probe_of plat sys (prog :: "--tune"%string :: rest)
          = ([EvResize 1], NeverReturns)))
  /\ main probe_of plat sys (prog :: "--tune"%string :: rest)
     = main probe_of plat sys (prog :: "--tune"%string :: firstn 1 rest).
Proof.
  split; [| split; [reflexivity | split; [| split]]].
  - intros Hne. unfold main. apply String.eqb_neq in Hne. rewrite Hne. reflexivity.
  - intros Hinit Hprobe. apply Z.ltb_lt in Hprobe. unfold main.
    rewrite String.eqb_refl. unfold initialize_swiss_ephemeris. rewrite Hinit.
    destruct rest as [| path more]; cbn [hd] in Hprobe; rewrite Hprobe; reflexivity.
  - intros Hok.
    assert (Hinit : exists sys1,
               initialize_swiss_ephemeris (probe_of (hd "./ephe"%string rest)) sys
               = ([], Ok sys1)
               /\ is_initialized sys1 = true /\ pool sys1 = pool sys).
    { unfold initialize_swiss_ephemeris.
      destruct (is_initialized sys) eqn:Hi.
      - exists sys. repeat split. exact Hi.
      - destruct Hok as [Hok | Hok]; [discriminate |].
        apply Z.ltb_ge in Hok. rewrite Hok. eexists. repeat split. }
    destruct Hinit as (sys1 & Hrun1 & Hi1 & Hpool).
    assert (Hpath : match rest with
                    | [] => "./ephe"%string
                    | path :: _ => path
                    end = hd "./ephe"%string rest) by (destruct rest; reflexivity).
    pose proof (autotune_threads_runs plat sys1 0 Hi1) as Htune.
    rewrite Hpool in Htune.
    split.
    + intros Hc. unfold main. rewrite String.eqb_refl, Hpath, Hrun1. cbn [bind].
      rewrite Htune, Hc. reflexivity.
    + intros Hc Hworkers. unfold main. rewrite String.eqb_refl, Hpath, Hrun1.
      cbn [bind]. apply N.eqb_neq in Hc. apply Nat.ltb_lt in Hworkers.
      rewrite Htune, Hc, Hworkers. reflexivity.
  - unfold main. rewrite String.eqb_refl.
    destruct rest as [| path more]; reflexivity.
Qed.

(** On a machine with four cores: a path without ephemeris, and the
    default path. On a machine that reports no concurrency. *)
Lemma main_exit_code_witness :
  main Sample.probe_of Demo.machine (fresh_system Demo.machine) Sample.tune_elsewhere
  = ([EvLogError], Ok (1%Z, None))
  /\ main Sample.probe_of Demo.machine (fresh_system Demo.machine) Sample.tune_default
     = ([EvResize 1], NeverReturns)
  /\ main Sample.probe_of Demo.unknown_cores (fresh_system Demo.unknown_cores)
          Sample.tune_default
     = ([], Ok (0%Z, Some 1%N)).
Proof.
  split; [| split].
  - apply (proj1 (proj2 (proj2 (@main_exit_code Sample.probe_of Demo.machine
                                  (fresh_system Demo.machine) "parabola_wrapper" "x"
                                  ["/opt/ephe"; "parabola.conf"]%string)))).
    + reflexivity.
    + vm_compute. reflexivity.
  - apply (proj1 (proj2 (proj2 (proj2 (@main_exit_code Sample.probe_of Demo.machine
                                         (fresh_system Demo.machine)
                                         "parabola_wrapper" "x" []))))).
    + right. vm_compute. discriminate.
    + vm_compute. discriminate.
    + cbn. lia.
  - apply (proj1 (proj2 (proj2 (proj2 (@main_exit_code Sample.probe_of Demo.unknown_cores
                                         (fresh_system Demo.unknown_cores)
                                         "parabola_wrapper" "x" []))))).
    + right. vm_compute. discriminate.
    + reflexivity.
Defined.

(** *** The benchmark of the patch *)

Lemma trials_of_enqueues {A} (items : list A) :
  trials (map (fun _ => EvEnqueue 1) items) = [].
Proof. induction items as [| x items IH]; [reflexivity | exact IH]. Qed.

Lemma picked_cons (plat : Platform) (t : N) (ts : list N) (b : Best) :
  picked plat (t :: ts) b
  = picked plat ts
           (if negb (Qle_bool (throughput plat t) (best_throughput b))
            then {| best_threads := t; best_throughput := throughput plat t |}
            else b).
Proof. reflexivity. Qed.

(** The record after the trials is the highest throughput seen, and
    its thread count is where it was measured. *)
Lemma picked_highest (plat : Platform) (ts : list N) (b : Best) :
  (best_throughput b <= best_throughput (picked plat ts b))%Q
  /\ not_exceeded plat ts (best_throughput (picked plat ts b))
  /\ (picked plat ts b = b
      \/ (In (best_threads (picked plat ts b)) ts
          /\ best_throughput (picked plat ts b)
             = throughput plat (best_threads (picked plat ts b)))).
Proof.
  revert b. induction ts as [| t ts IH]; intros b.
  - cbn. split; [lra | split; [intros t [] | left; reflexivity]].
  - rewrite picked_cons.
    destruct (Qle_bool (throughput plat t) (best_throughput b)) eqn:Hcmp; cbn [negb].
    + apply Qle_bool_iff in Hcmp.
      destruct (IH b) as (Hup & Hall & Hwhere).
      split; [exact Hup | split].
      * intros t' [<- | Hin]; [lra | apply Hall; exact Hin].
      * destruct Hwhere as [Hsame | [Hin Heq]]; [left; exact Hsame |].
        right. split; [right; exact Hin | exact Heq].
    + apply Qle_bool_false in Hcmp.
      destruct (IH {| best_threads := t; best_throughput := throughput plat t |})
        as (Hup & Hall & Hwhere).
      cbn in Hup. split; [lra | split].
      * intros t' [<- | Hin]; [exact Hup | apply Hall; exact Hin].
      * right. destruct Hwhere as [Hsame | [Hin Heq]].
        -- rewrite Hsame. cbn. split; [left; reflexivity | reflexivity].
        -- split; [right; exact Hin | exact Heq].
Qed.

Section PatchProperties.

Variable double : Type.
Variable SEFLG_SPEED : Z.
Variable swe_calc_ut : double -> Z -> Z -> Z * list double * string.
Variable SE_SUN SE_MOON SE_MERCURY SE_VENUS SE_MARS : Z.
Variable SE_JUPITER SE_SATURN SE_URANUS SE_NEPTUNE SE_PLUTO : Z.
Variable minute_jd : nat -> double.

Local Abbreviation patch_main :=
  (swephmain SEFLG_SPEED swe_calc_ut SE_SUN SE_MOON SE_MERCURY SE_VENUS SE_MARS
             SE_JUPITER SE_SATURN SE_URANUS SE_NEPTUNE SE_PLUTO minute_jd).

Lemma swephmain_loop_runs (plat : Platform) (batch : list (PlanetRequest double)) :
  forall (counts : list N) (b : Best),
    (forall t, In t counts -> (1 <= t <= thread_limit plat)%N) ->
    exists tr,
      swephmain_loop SEFLG_SPEED swe_calc_ut plat batch counts b
      = (tr, Ok (Some (picked plat counts b)))
      /\ trials tr = counts.
Proof.
  induction counts as [| t counts IH]; intros b Hcounts.
  - exists []. split; reflexivity.
  - cbn [swephmain_loop]. unfold compute_planets_threadpool.
    rewrite run_on_local_pool_returns by (apply Hcounts; left; reflexivity).
    cbn [bind tell].
    destruct (IH (if negb (Qle_bool (throughput plat t) (best_throughput b))
                  then {| best_threads := t; best_throughput := throughput plat t |}
                  else b))
      as (tr & Hrun & Htrials); [intros t' Hin; apply Hcounts; right; exact Hin |].
    rewrite Hrun. eexists. split; [reflexivity |].
    cbn [trials app]. rewrite !trials_app, trials_of_enqueues. cbn [app trials].
    rewrite Htrials. reflexivity.
Qed.

(** X16. Where sixteen threads can be created and throughputs are not
    negative, [swephmain] runs its five trials, with 1, 2, 4, 8 and 16
    threads, and leaves in [g_parabola_thread_count] one of these
    counts, at which no other trial measured a higher throughput. *)
Theorem swephmain_picks_highest (plat : Platform) :
  (16 <= thread_limit plat)%N ->
  (forall t, (0 <= throughput plat t)%Q) ->
  exists tr g,
    patch_main plat = (tr, Ok (Some g))
    /\ trials tr = thread_counts
    /\ In g thread_counts
    /\ forall t, In t thread_counts -> (throughput plat t <= throughput plat g)%Q.
Proof.
  intros Hlimit Hpos. unfold swephmain.
  destruct (@swephmain_loop_runs plat
              (create_test_workload SE_SUN SE_MOON SE_MERCURY SE_VENUS SE_MARS
                                    SE_JUPITER SE_SATURN SE_URANUS SE_NEPTUNE SE_PLUTO
                                    minute_jd charts)
              thread_counts initial_best)
    as (tr & Hrun & Htrials).
  { intros t Hin. unfold thread_counts in Hin. cbn in Hin.
    destruct Hin as [<- | [<- | [<- | [<- | [<- | []]]]]]; lia. }
  rewrite Hrun. cbn [bind ret option_map].
  exists (tr ++ []), (best_threads (picked plat thread_counts initial_best)).
  rewrite app_nil_r. split; [reflexivity | split; [exact Htrials |]].
  destruct (picked_highest plat thread_counts initial_best) as (_ & Hall & Hwhere).
  destruct Hwhere as [Hsame | [Hin Heq]].
  - rewrite Hsame in *. cbn [best_threads best_throughput initial_best] in *.
    split; [left; reflexivity |].
    intros t Hin. specialize (Hall t Hin). pose proof (Hpos 1%N). lra.
  - split; [exact Hin |]. intros t Ht. rewrite <- Heq. apply Hall. exact Ht.
Qed.

End PatchProperties.

Lemma swephmain_picks_highest_witness :
  exists tr g,
    swephmain Demo.flag Demo.calc 0 1 2 3 4 5 6 7 8 9 Sample.minute Sample.wide
    = (tr, Ok (Some g))
    /\ trials tr = thread_counts
    /\ In g thread_counts
    /\ forall t, In t thread_counts
                 -> (throughput Sample.wide t <= throughput Sample.wide g)%Q.
Proof.
  apply (@swephmain_picks_highest Z Demo.flag Demo.calc 0 1 2 3 4 5 6 7 8 9
           Sample.minute Sample.wide).
  - cbn. lia.
  - intros t. cbn. destruct (t <=? 8)%N; [| vm_compute; discriminate].
    unfold Qle. cbn. lia.
Defined.

(** ** The life of the pool *)

Module PoolFurther.
Import Pool.

Lemma set_nth_other {A} (i j : nat) (x : A) (l : list A) :
  i <> j -> nth_error (set_nth i x l) j = nth_error l j.
Proof.
  revert i j. induction l as [| y l IH]; intros [| i] [| j] Hne; cbn;
    try reflexivity; try lia.
  apply IH. lia.
Qed.

Lemma set_nth_In {A} (i : nat) (x y : A) (l : list A) :
  In y (set_nth i x l) -> y = x \/ In y l.
Proof.
  revert i. induction l as [| z l IH]; intros [| i] Hin; cbn in Hin.
  - contradiction.
  - contradiction.
  - destruct Hin as [<- | Hin]; [left; reflexivity | right; right; exact Hin].
  - destruct Hin as [<- | Hin]; [right; left; reflexivity |].
    destruct (IH i Hin) as [-> | Hl]; [left; reflexivity | right; right; exact Hl].
Qed.

Lemma nth_error_bound {A} (l : list A) (i : nat) (x : A) :
  nth_error l i = Some x -> i < length l.
Proof. intros H. apply nth_error_Some. rewrite H. discriminate. Qed.

(** What a step of a worker does, case by case. *)
Lemma worker_step_cases (i : nat) (s s' : state) :
  worker_step i s = Some s' ->
  call s' = call s /\ stop s' = stop s
  /\ ((nth_error (workers s) i = Some Waiting /\ mutex_held s = false
       /\ stop s = true /\ tasks s = []
       /\ workers s' = set_nth i Exited (workers s)
       /\ tasks s' = [] /\ executed s' = executed s)
      \/ (exists t q,
             nth_error (workers s) i = Some Waiting /\ mutex_held s = false
             /\ tasks s = t :: q
             /\ workers s' = set_nth i (Running t) (workers s)
             /\ tasks s' = q /\ executed s' = executed s)
      \/ (exists t,
             nth_error (workers s) i = Some (Running t)
             /\ workers s' = set_nth i Waiting (workers s)
             /\ tasks s' = tasks s /\ executed s' = executed s ++ [t])).
Proof.
  unfold worker_step. intros Hstep.
  destruct (nth_error (workers s) i) as [[| t |] |] eqn:Hw; try discriminate.
  - destruct (mutex_held s) eqn:Hm; [discriminate |].
    destruct (tasks s) as [| t q] eqn:Hq.
    + destruct (stop s) eqn:Hs; [| discriminate]. inversion Hstep; subst s'. cbn.
      rewrite Hs, Hq. repeat split. left. repeat split.
    + inversion Hstep; subst s'. cbn. repeat split. right. left.
      exists t, q. repeat split.
  - inversion Hstep; subst s'. cbn. repeat split. right. right.
    exists t. repeat split.
Qed.

(** What a step of the destructor does. *)
Lemma destructor_step_cases (s s' : state) :
  in_destructor s ->
  caller_step s = Some s' ->
  workers s' = workers s /\ tasks s' = tasks s /\ executed s' = executed s
  /\ ((call s = DtorEntered /\ call s' = DtorJoining 0 /\ stop s' = true)
      \/ (exists k, call s = DtorJoining k /\ k < length (workers s)
                    /\ nth_error (workers s) k = Some Exited
                    /\ call s' = DtorJoining (S k) /\ stop s' = stop s)
      \/ (exists k, call s = DtorJoining k /\ length (workers s) <= k
                    /\ call s' = DtorDone /\ stop s' = stop s)).
Proof.
  unfold in_destructor, caller_step. intros Hin Hstep.
  destruct (call s) as [| n | n k | | k |] eqn:Hcall; try contradiction; try discriminate.
  - inversion Hstep; subst s'. cbn. repeat split. left. repeat split.
  - destruct (k <? length (workers s)) eqn:Hk.
    + apply Nat.ltb_lt in Hk. unfold joined in Hstep.
      destruct (nth_error (workers s) k) as [[| t |] |] eqn:Hw; try discriminate.
      inversion Hstep; subst s'. cbn. repeat split. right. left.
      exists k. repeat split; assumption.
    + apply Nat.ltb_ge in Hk. inversion Hstep; subst s'. cbn. repeat split.
      right. right. exists k. repeat split; assumption.
Qed.

Lemma not_resizing_step (a : actor) (s s' : state) :
  not_resizing s -> step a s = Some s' ->
  not_resizing s' /\ length (workers s') = length (workers s).
Proof.
  intros Hs Hstep. destruct a as [i |]; cbn in Hstep.
  - destruct (@worker_step_cases i s s' Hstep) as (Hcall & _ & Hcases).
    split.
    + unfold not_resizing, in_destructor in *. rewrite Hcall. exact Hs.
    + destruct Hcases as [(_ & _ & _ & _ & Hw & _) | [(t & q & _ & _ & _ & Hw & _)
                                                       | (t & _ & Hw & _)]];
        rewrite Hw; apply PoolProperties.set_nth_length.
  - destruct Hs as [Hs | Hs]; [| unfold caller_step in Hstep; rewrite Hs in Hstep; discriminate].
    destruct (@destructor_step_cases s s' Hs Hstep) as (Hw & _ & _ & Hcases).
    split; [| rewrite Hw; reflexivity].
    left. unfold in_destructor.
    destruct Hcases as [(_ & -> & _) | [(k & _ & _ & _ & -> & _) | (k & _ & _ & -> & _)]];
      exact I.
Qed.

Lemma destructor_invariant_step (a : actor) (s s' : state) :
  destructor_invariant s -> step a s = Some s' -> destructor_invariant s'.
Proof.
  intros (Hin & Hexit & Hjoin) Hstep.
  destruct (@not_resizing_step a s s' (or_introl Hin) Hstep) as [Hnr Hlen].
  destruct a as [i |]; cbn in Hstep.
  - destruct (@worker_step_cases i s s' Hstep) as (Hcall & Hstop & Hcases).
    unfold destructor_invariant, in_destructor in *. rewrite Hcall, Hstop, Hlen.
    split; [exact Hin |].
    destruct Hcases as [(Hw & _ & Hs & Hq & Hws & Hq' & _)
                       | [(t & q & Hw & _ & Hq & Hws & Hq' & _)
                         | (t & Hw & Hws & Hq' & _)]].
    + split; [intros _; split; assumption |].
      assert (Hkeep : forall j, j < length (workers s) ->
                                nth_error (workers s) j = Some Exited ->
                                nth_error (workers s') j = Some Exited).
      { intros j Hj Hold. rewrite Hws. destruct (Nat.eq_dec i j) as [-> | Hne].
        - apply (@PoolProperties.set_nth_same _ j Exited Waiting _ Hw).
        - rewrite set_nth_other by exact Hne. exact Hold. }
      destruct (call s); try exact I; destruct Hjoin as [Hs' Hall];
        (split; [exact Hs' | intros j; intros; apply Hkeep; auto]).
    + assert (Hnone : ~ In Exited (workers s)).
      { intros Hex. destruct (Hexit Hex) as [_ Hempty]. congruence. }
      split.
      * intros Hex. rewrite Hws in Hex. apply set_nth_In in Hex.
        destruct Hex as [Hex | Hex]; [discriminate | contradiction].
      * destruct (call s); try exact I; destruct Hjoin as [Hs' Hall];
          (split; [exact Hs' |]); intros j; intros; exfalso; apply Hnone;
            apply (nth_error_In _ j); apply Hall; assumption.
    + assert (Hkeep : forall j, nth_error (workers s) j = Some Exited ->
                                nth_error (workers s') j = Some Exited).
      { intros j Hold. rewrite Hws. destruct (Nat.eq_dec i j) as [-> | Hne].
        - congruence.
        - rewrite set_nth_other by exact Hne. exact Hold. }
      split.
      * intros Hex. rewrite Hws in Hex. apply set_nth_In in Hex.
        rewrite Hq'. destruct Hex as [Hex | Hex]; [discriminate | apply Hexit; exact Hex].
      * destruct (call s); try exact I; destruct Hjoin as [Hs' Hall];
          (split; [exact Hs' | intros j; intros; apply Hkeep; auto]).
  - destruct (@destructor_step_cases s s' Hin Hstep) as (Hw & Hq & _ & Hcases).
    unfold destructor_invariant. rewrite Hw, Hq.
    split; [destruct Hnr as [Hnr | Hnr]; [exact Hnr |];
            unfold caller_step in Hstep; unfold in_destructor in *;
            destruct (call s); try contradiction; try discriminate;
            [inversion Hstep; subst s'; discriminate
            | destruct (_ <? _); [destruct (joined s _) |];
              inversion Hstep; subst s'; discriminate] |].
    destruct Hcases as [(Hc & Hc' & Hs') | [(k & Hc & Hk & Hwk & Hc' & Hs')
                                           | (k & Hc & Hk & Hc' & Hs')]];
      rewrite Hc in Hjoin; rewrite Hc'.
    + split; [intros Hex; split; [exact Hs' | apply Hexit; exact Hex] |].
      split; [exact Hs' | intros j Hj; lia].
    + destruct Hjoin as [Hs Hall]. rewrite Hs'.
      split; [exact Hexit | split; [exact Hs |]].
      intros j Hj Hjl. destruct (Nat.eq_dec j k) as [-> | Hne];
        [exact Hwk | apply Hall; lia].
    + destruct Hjoin as [Hs Hall]. rewrite Hs'.
      split; [exact Hexit | split; [exact Hs |]].
      intros j Hj. apply Hall; lia.
Qed.

Lemma destructor_invariant_run (sched : list actor) :
  forall s, destructor_invariant s -> destructor_invariant (run sched s).
Proof.
  induction sched as [| a rest IH]; intros s Hs; [exact Hs |].
  cbn [run]. destruct (step a s) as [s' |] eqn:Hstep.
  - apply IH. exact (@destructor_invariant_step a s s' Hs Hstep).
  - apply IH. exact Hs.
Qed.

Lemma destructor_keeps_tasks (sched : list actor) :
  forall s,
    in_destructor s ->
    Permutation (held (run sched s)) (held s)
    /\ length (workers (run sched s)) = length (workers s).
Proof.
  induction sched as [| a rest IH]; intros s Hs; [split; reflexivity |].
  cbn [run]. destruct (step a s) as [s' |] eqn:Hstep; [| apply IH; exact Hs].
  destruct (@not_resizing_step a s s' (or_introl Hs) Hstep) as [Hnr Hlen].
  assert (Hs' : in_destructor s').
  { destruct Hnr as [Hnr | Hnr]; [exact Hnr |].
    destruct a as [i |]; cbn in Hstep.
    - destruct (@worker_step_cases i s s' Hstep) as (Hcall & _).
      unfold in_destructor in *. rewrite Hcall in Hnr. rewrite Hnr in Hs. contradiction.
    - destruct (@destructor_step_cases s s' Hs Hstep)
        as (_ & _ & _ & [(_ & Hc & _) | [(k & _ & _ & _ & Hc & _) | (k & _ & _ & Hc & _)]]);
        congruence. }
  destruct (IH s' Hs') as [Hperm Hlen'].
  split; [| congruence].
  rewrite Hperm. destruct a as [i |]; cbn in Hstep.
  - apply (@PoolProperties.worker_keeps_tasks i s s' Hstep).
  - destruct (@destructor_step_cases s s' Hs Hstep) as (Hw & Hq & He & _).
    unfold held. rewrite Hw, Hq, He. reflexivity.
Qed.

Lemma running_tasks_exited (ws : list worker) :
  (forall j, j < length ws -> nth_error ws j = Some Exited) -> running_tasks ws = [].
Proof.
  induction ws as [| w ws IH]; intros Hall; [reflexivity |].
  pose proof (Hall 0 ltac:(cbn; lia)) as H0. cbn in H0. inversion H0; subst w.
  unfold running_tasks. cbn [flat_map app]. apply IH.
  intros j Hj. apply (Hall (S j)). cbn. lia.
Qed.

(** X17. The destructor never blocks and loses nothing. From the
    moment it is entered on a pool with live workers, under every
    schedule: if no thread can take a step any more, then the
    destructor has returned, every worker has exited, the queue is empty
    and the tasks that were queued or running when it was entered have
    all been executed, each once. *)
Theorem destructor_runs_every_task (s : state) (sched : list actor) :
  call s = DtorEntered ->
  workers s <> [] ->
  ~ In Exited (workers s) ->
  quiescent (run sched s) ->
  call (run sched s) = DtorDone
  /\ tasks (run sched s) = []
  /\ (forall j, j < length (workers s) ->
                nth_error (workers (run sched s)) j = Some Exited)
  /\ Permutation (executed (run sched s)) (held s).
Proof.
  intros Hcall Hne Halive Hquiet.
  assert (Hin : in_destructor s) by (unfold in_destructor; rewrite Hcall; exact I).
  assert (Hinv : destructor_invariant s).
  { unfold destructor_invariant. rewrite Hcall.
    split; [exact Hin | split; [intros Hex; contradiction | exact I]]. }
  apply (destructor_invariant_run sched) in Hinv.
  destruct (@destructor_keeps_tasks sched s Hin) as [Hperm Hlen].
  set (s' := run sched s) in *.
  destruct Hinv as (Hin' & Hexit & Hjoin).
  assert (Hdone : call s' = DtorDone).
  { unfold in_destructor in Hin'.
    destruct (call s') as [| n | n k | | k |] eqn:Hc; try contradiction.
    - pose proof (Hquiet Caller) as Hq. cbn in Hq. unfold caller_step in Hq.
      rewrite Hc in Hq. discriminate.
    - destruct Hjoin as [Hstop Hall].
      pose proof (Hquiet Caller) as Hq. cbn in Hq. unfold caller_step in Hq.
      rewrite Hc in Hq.
      destruct (k <? length (workers s')) eqn:Hk; [| discriminate].
      pose proof (Hquiet (Worker k)) as Hqw. cbn in Hqw. unfold worker_step in Hqw.
      unfold joined in Hq. unfold mutex_held in Hqw. rewrite Hc, Hstop in Hqw.
      apply Nat.ltb_lt in Hk.
      destruct (nth_error (workers s') k) as [[| t |] |] eqn:Hw; try discriminate.
      + destruct (tasks s'); discriminate.
      + apply nth_error_None in Hw. lia.
    - reflexivity. }
  rewrite Hdone in Hjoin. destruct Hjoin as [Hstop Hall].
  assert (Hex : In Exited (workers s')).
  { apply (nth_error_In _ 0). apply Hall. rewrite Hlen.
    destruct (workers s); [contradiction Hne; reflexivity | cbn; lia]. }
  destruct (Hexit Hex) as [_ Hempty].
  split; [exact Hdone | split; [exact Hempty | split]].
  - intros j Hj. apply Hall. rewrite Hlen. exact Hj.
  - rewrite <- Hperm. unfold held.
    rewrite (running_tasks_exited (workers s') Hall), Hempty, !app_nil_r. reflexivity.
Qed.

Lemma destructor_runs_every_task_witness :
  call (run Sample.closing_schedule Sample.closing) = DtorDone
  /\ tasks (run Sample.closing_schedule Sample.closing) = []
  /\ (forall j, j < length (workers Sample.closing) ->
                nth_error (workers (run Sample.closing_schedule Sample.closing)) j
                = Some Exited)
  /\ Permutation (executed (run Sample.closing_schedule Sample.closing))
                 (held Sample.closing).
Proof.
  apply (@destructor_runs_every_task Sample.closing Sample.closing_schedule).
  - reflexivity.
  - discriminate.
  - intros [H | [H | []]]; discriminate.
  - intros [[| [| [| i]]] |]; reflexivity.
Defined.

Lemma set_nth_weight (i : nat) (w w' : worker) (ws : list worker) :
  nth_error ws i = Some w ->
  list_sum (map worker_weight (set_nth i w' ws)) + worker_weight w
  = list_sum (map worker_weight ws) + worker_weight w'.
Proof.
  revert i. induction ws as [| x ws IH]; intros [| i] Hw; cbn in Hw; try discriminate.
  - inversion Hw; subst x. unfold list_sum. cbn [set_nth map fold_right]. lia.
  - unfold list_sum in *. cbn [set_nth map fold_right]. specialize (IH i Hw). lia.
Qed.

Lemma step_lowers_weight (a : actor) (s s' : state) :
  not_resizing s -> step a s = Some s' -> weight s' < weight s.
Proof.
  intros Hs Hstep. destruct a as [i |]; cbn in Hstep.
  - destruct (@worker_step_cases i s s' Hstep) as (Hcall & _ & Hcases).
    assert (Hcw : caller_weight s' = caller_weight s).
    { unfold caller_weight. rewrite Hcall.
      destruct (@not_resizing_step (Worker i) s s' Hs Hstep) as [_ Hlen].
      rewrite Hlen. reflexivity. }
    unfold weight. rewrite Hcw.
    destruct Hcases as [(Hw & _ & _ & Hq & Hws & Hq' & _)
                       | [(t & q & Hw & _ & Hq & Hws & Hq' & _)
                         | (t & Hw & Hws & Hq' & _)]];
      rewrite Hws, Hq'.
    + pose proof (@set_nth_weight i Waiting Exited _ Hw) as Hsum. rewrite Hq.
      cbn in Hsum |- *. lia.
    + pose proof (@set_nth_weight i Waiting (Running t) _ Hw) as Hsum. rewrite Hq.
      cbn in Hsum |- *. lia.
    + pose proof (@set_nth_weight i (Running t) Waiting _ Hw) as Hsum.
      cbn in Hsum |- *. lia.
  - destruct Hs as [Hs | Hs]; [| unfold caller_step in Hstep; rewrite Hs in Hstep; discriminate].
    destruct (@destructor_step_cases s s' Hs Hstep) as (Hw & Hq & _ & Hcases).
    unfold weight, caller_weight. rewrite Hw, Hq.
    destruct Hcases as [(Hc & Hc' & _) | [(k & Hc & Hk & _ & Hc' & _)
                                         | (k & Hc & Hk & Hc' & _)]];
      rewrite Hc, Hc'; lia.
Qed.

(** X18. While no [resize] is under way the pool cannot run forever on
    the tasks it has: each step of a worker or of the destructor lowers a
    weight made of the queue, the states of the workers and the progress
    of the joins, so a schedule takes at most that many steps. *)
Theorem pool_steps_bounded (sched : list actor) (s : state) :
  not_resizing s -> steps_taken sched s <= weight s.
Proof.
  revert s. induction sched as [| a rest IH]; intros s Hs; [cbn; lia |].
  cbn [steps_taken]. destruct (step a s) as [s' |] eqn:Hstep.
  - pose proof (@step_lowers_weight a s s' Hs Hstep) as Hlt.
    destruct (@not_resizing_step a s s' Hs Hstep) as [Hs' _].
    specialize (IH s' Hs'). lia.
  - apply IH. exact Hs.
Qed.

Lemma pool_steps_bounded_witness :
  steps_taken (Sample.closing_schedule ++ Sample.closing_schedule) Sample.closing
  <= weight Sample.closing.
Proof.
  apply (@pool_steps_bounded (Sample.closing_schedule ++ Sample.closing_schedule)
           Sample.closing).
  left. exact I.
Defined.

Lemma single_worker_step (a : actor) (s s' : state) :
  length (workers s) = 1 -> not_resizing s -> step a s = Some s' ->
  held s' = held s.
Proof.
  intros Hone Hs Hstep. destruct a as [i |]; cbn in Hstep.
  - destruct (@worker_step_cases i s s' Hstep) as (_ & _ & Hcases).
    destruct (workers s) as [| w [| w2 ws]] eqn:Hws; try discriminate.
    unfold held.
    destruct Hcases as [(Hw & _ & _ & Hq & Hws' & Hq' & He)
                       | [(t & q & Hw & _ & Hq & Hws' & Hq' & He)
                         | (t & Hw & Hws' & Hq' & He)]];
      rewrite Hws', Hq', He, ?Hws;
      (destruct i as [| i]; [| destruct i; discriminate]);
      cbn in Hw; inversion Hw; subst w; cbn.
    + rewrite Hq. reflexivity.
    + rewrite Hq. reflexivity.
    + rewrite <- app_assoc. reflexivity.
  - destruct Hs as [Hs | Hs]; [| unfold caller_step in Hstep; rewrite Hs in Hstep; discriminate].
    destruct (@destructor_step_cases s s' Hs Hstep) as (Hw & Hq & He & _).
    unfold held. rewrite Hw, Hq, He. reflexivity.
Qed.

(** X19. A pool with a single worker executes its tasks in the order
    of the queue: while no [resize] is under way, under every schedule,
    the tasks executed so far, the one being run and the ones still
    queued form, in this order, the same list as before. *)
Theorem single_worker_is_fifo (sched : list actor) (s : state) :
  length (workers s) = 1 ->
  not_resizing s ->
  held (run sched s) = held s
  /\ exists rest, held s = executed (run sched s) ++ rest.
Proof.
  intros Hone Hs.
  assert (Hheld : held (run sched s) = held s).
  { revert s Hone Hs. induction sched as [| a rest IH]; intros s Hone Hs; [reflexivity |].
    cbn [run]. destruct (step a s) as [s' |] eqn:Hstep; [| apply IH; assumption].
    destruct (@not_resizing_step a s s' Hs Hstep) as [Hs' Hlen].
    rewrite IH by (congruence || exact Hs').
    apply (@single_worker_step a s s' Hone Hs Hstep). }
  split; [exact Hheld |].
  rewrite <- Hheld. unfold held. eexists. reflexivity.
Qed.

Lemma single_worker_is_fifo_witness :
  held (run [Worker 0; Worker 0; Worker 0; Caller; Worker 0] Sample.busy)
  = held Sample.busy
  /\ exists rest,
      held Sample.busy
      = executed (run [Worker 0; Worker 0; Worker 0; Caller; Worker 0] Sample.busy)
        ++ rest.
Proof.
  apply (@single_worker_is_fifo [Worker 0; Worker 0; Worker 0; Caller; Worker 0]
           Sample.busy).
  - reflexivity.
  - right. reflexivity.
Defined.

(** X20. A pool built with no thread never runs anything, and its
    destructor returns at once: under every schedule the queue and the
    list of executed tasks stay as they were, and after the two steps
    of the destructor the pool is gone with its tasks still queued. *)
Theorem pool_without_workers_drops_tasks (sched : list actor) (s : state) :
  workers s = [] ->
  call s = DtorEntered ->
  tasks (run sched s) = tasks s
  /\ executed (run sched s) = executed s
  /\ call (run [Caller; Caller] s) = DtorDone
  /\ tasks (run [Caller; Caller] s) = tasks s.
Proof.
  intros Hws Hcall.
  assert (Hkeep : forall sched s, workers s = [] -> in_destructor s ->
                                  tasks (run sched s) = tasks s
                                  /\ executed (run sched s) = executed s).
  { clear. induction sched as [| a rest IH]; intros s Hws Hs; [split; reflexivity |].
    cbn [run]. destruct (step a s) as [s' |] eqn:Hstep; [| apply IH; assumption].
    destruct a as [i |]; cbn in Hstep.
    - unfold worker_step in Hstep. rewrite Hws in Hstep.
      destruct i; discriminate.
    - destruct (@destructor_step_cases s s' Hs Hstep) as (Hw & Hq & He & Hcases).
      rewrite <- Hq, <- He. apply IH; [congruence |].
      unfold in_destructor.
      destruct Hcases as [(_ & -> & _) | [(k & _ & _ & _ & -> & _) | (k & _ & _ & -> & _)]];
        exact I. }
  destruct (Hkeep sched s Hws) as [Hq He];
    [unfold in_destructor; rewrite Hcall; exact I |].
  split; [exact Hq | split; [exact He |]].
  cbn [run step]. unfold caller_step. rewrite Hcall. cbn. rewrite Hws. cbn.
  split; reflexivity.
Qed.

Lemma pool_without_workers_drops_tasks_witness :
  tasks (run [Worker 0; Caller; Worker 0; Caller] Sample.idle) = tasks Sample.idle
  /\ executed (run [Worker 0; Caller; Worker 0; Caller] Sample.idle)
     = executed Sample.idle
  /\ call (run [Caller; Caller] Sample.idle) = DtorDone
  /\ tasks (run [Caller; Caller] Sample.idle) = tasks Sample.idle.
Proof.
  apply (@pool_without_workers_drops_tasks [Worker 0; Caller; Worker 0; Caller]
           Sample.idle); reflexivity.
Defined.

Lemma resize_joins_exited (n : nat) :
  forall (m k : nat) (s : state),
    call s = ResizeJoining n k ->
    k + m = length (workers s) ->
    (forall j, j < length (workers s) -> nth_error (workers s) j = Some Exited) ->
    run (repeat Caller (S m)) s
    = {| workers := repeat Waiting n; tasks := tasks s; stop := false;
         executed := executed s; call := NoCall |}.
Proof.
  induction m as [| m IH]; intros k s Hcall Hk Hall.
  - assert (Hfirst : step Caller s
                     = Some {| workers := repeat Waiting n; tasks := tasks s;
                               stop := false; executed := executed s;
                               call := NoCall |}).
    { cbn [step]. unfold caller_step. rewrite Hcall.
      assert (Hb : (k <? length (workers s)) = false) by (apply Nat.ltb_ge; lia).
      rewrite Hb. reflexivity. }
    cbn [repeat run]. rewrite Hfirst. reflexivity.
  - assert (Hfirst : step Caller s
                     = Some {| workers := workers s; tasks := tasks s; stop := stop s;
                               executed := executed s; call := ResizeJoining n (S k) |}).
    { cbn [step]. unfold caller_step. rewrite Hcall.
      assert (Hb : (k <? length (workers s)) = true) by (apply Nat.ltb_lt; lia).
      rewrite Hb. unfold joined. rewrite (Hall k) by lia. reflexivity. }
    change (repeat Caller (S (S m))) with (Caller :: repeat Caller (S m)).
    cbn [run]. rewrite Hfirst.
    rewrite (IH (S k)); [reflexivity | reflexivity | cbn; lia | exact Hall].
Qed.

(** X21. [resize] returns when it has no live worker to wait for: on a
    pool whose workers have all exited, and so on the empty pool of the
    constructor, it joins them one by one and leaves the requested
    number of fresh workers, the stop flag cleared and the queue as it
    was, so that queued tasks are theirs to run. *)
Theorem resize_after_exit (s : state) (n : nat) :
  call s = ResizeEntered n ->
  (forall j, j < length (workers s) -> nth_error (workers s) j = Some Exited) ->
  run (repeat Caller (length (workers s) + 2)) s
  = {| workers := repeat Waiting n; tasks := tasks s; stop := false;
       executed := executed s; call := NoCall |}.
Proof.
  intros Hcall Hall.
  replace (length (workers s) + 2) with (S (S (length (workers s)))) by lia.
  assert (Hfirst : step Caller s
                   = Some {| workers := workers s; tasks := tasks s; stop := true;
                             executed := executed s; call := ResizeJoining n 0 |}).
  { cbn [step]. unfold caller_step. rewrite Hcall. reflexivity. }
  change (repeat Caller (S (S (length (workers s)))))
    with (Caller :: repeat Caller (S (length (workers s)))).
  cbn [run]. rewrite Hfirst.
  apply (@resize_joins_exited n (length (workers s)) 0
           {| workers := workers s; tasks := tasks s; stop := true;
              executed := executed s; call := ResizeJoining n 0 |});
    [reflexivity | reflexivity | exact Hall].
Qed.

Lemma resize_after_exit_witness :
  run (repeat Caller (length (workers Sample.constructing) + 2)) Sample.constructing
  = {| workers := repeat Waiting 3; tasks := tasks Sample.constructing; stop := false;
       executed := executed Sample.constructing; call := NoCall |}.
Proof.
  apply (@resize_after_exit Sample.constructing 3).
  - reflexivity.
  - intros j Hj. cbn in Hj. lia.
Defined.

End PoolFurther.

(** ** The loader and its file *)

Module LoaderFurther.
Import Loader LoaderIO.
Open Scope nat_scope.

Lemma length_append (a b : string) :
  String.length (a ++ b)%string = String.length a + String.length b.
Proof. induction a as [| c a IH]; [reflexivity |]. cbn. rewrite IH. reflexivity. Qed.

Lemma substring_whole (s : string) : substring 0 (String.length s) s = s.
Proof. induction s as [| c s IH]; [reflexivity |]. cbn. rewrite IH. reflexivity. Qed.

Lemma substring_after (a b : string) :
  substring (String.length a) (String.length b) (a ++ b)%string = b.
Proof.
  induction a as [| c a IH]; [apply substring_whole |]. cbn. exact IH.
Qed.

Lemma substring_split (n : nat) :
  forall s : string,
    n <= String.length s ->
    s = (substring 0 n s ++ substring n (String.length s - n) s)%string.
Proof.
  induction n as [| n IH]; intros s Hn.
  - rewrite Nat.sub_0_r, substring_whole. destruct s; reflexivity.
  - destruct s as [| c s]; [cbn in Hn; lia |].
    cbn in Hn. cbn. f_equal. apply IH. lia.
Qed.

(** X22. The test of the file name accepts exactly the names that end
    in ".swevid", the bare ".swevid" included. *)
Theorem has_swevid_extension_spec (fname : string) :
  has_swevid_extension fname = true <-> ends_in_swevid fname.
Proof.
  unfold has_swevid_extension, ends_in_swevid. split.
  - destruct (String.length fname <? 7) eqn:Hlen; [discriminate |].
    apply Nat.ltb_ge in Hlen. intros Hext. apply String.eqb_eq in Hext.
    exists (substring 0 (String.length fname - 7) fname).
    pose proof (@substring_split (String.length fname - 7) fname ltac:(lia)) as Hs.
    replace (String.length fname - (String.length fname - 7)) with 7 in Hs by lia.
    rewrite Hext in Hs. exact Hs.
  - intros [stem ->]. rewrite length_append.
    change (String.length ".swevid") with 7.
    assert (Hlen : (String.length stem + 7 <? 7) = false) by (apply Nat.ltb_ge; lia).
    rewrite Hlen. replace (String.length stem + 7 - 7) with (String.length stem) by lia.
    change 7 with (String.length ".swevid") at 1.
    rewrite substring_after. apply String.eqb_refl.
Qed.

Lemma has_swevid_extension_spec_witness :
  has_swevid_extension "sepl_18.swevid" = true.
Proof.
  apply (proj2 (has_swevid_extension_spec "sepl_18.swevid")).
  exists "sepl_18"%string. reflexivity.
Defined.

Open Scope Z_scope.

(** X23. For an offset and a length that are not negative, on a mapped
    file, [read_swe_file] returns 0 exactly when the name ends in
    ".swevid" and the range lies within the file; it then copies
    [length] bytes from the address of the mapping plus [offset], inside
    the mapped region, and in every other case it copies nothing. The
    stem of the name plays no part. *)
Theorem read_swe_file_exact (ld : loader) (base : Z) (fname : string)
        (offset length : Z) :
  swevid_data ld = Some base ->
  well_mapped ld ->
  is_int offset -> is_int length ->
  0 <= offset -> 0 <= length ->
  (fst (read_swe_file ld fname offset length) = 0
   <-> ends_in_swevid fname /\ offset + length <= swevid_size ld)
  /\ (ends_in_swevid fname -> offset + length <= swevid_size ld ->
      snd (read_swe_file ld fname offset length)
      = Some {| src := base + offset; len := length |}
      /\ in_region ld {| src := base + offset; len := length |})
  /\ (fst (read_swe_file ld fname offset length) <> 0 ->
      snd (read_swe_file ld fname offset length) = None).
Proof.
  intros Hdata Hmap Hio Hil Ho Hl.
  destruct (has_swevid_extension fname) eqn:Hext.
  - assert (Hends : ends_in_swevid fname) by (apply has_swevid_extension_spec; exact Hext).
    destruct (@LoaderProperties.read_swe_file_nonnegative
                ld base fname offset length Hdata Hmap Hext Hio Hil Ho Hl)
      as [Hin Hout].
    destruct (Z_le_gt_dec (offset + length) (swevid_size ld)) as [Hle | Hgt].
    + destruct (Hin Hle) as [Hread Hreg]. rewrite Hread. cbn [fst snd].
      split; [split; [intros _; split; assumption | reflexivity] |].
      split; [intros _ _; split; [reflexivity | exact Hreg] | intros H; contradiction H; reflexivity].
    + rewrite (Hout ltac:(lia)). cbn [fst snd].
      split; [split; [discriminate | intros [_ H]; lia] |].
      split; [intros _ H; lia | reflexivity].
  - rewrite (@LoaderProperties.read_swe_file_refused ld fname offset length
               (or_intror Hext)).
    cbn [fst snd].
    assert (Hno : ~ ends_in_swevid fname).
    { intros H. apply has_swevid_extension_spec in H. congruence. }
    split; [split; [discriminate | intros [H _]; contradiction] |].
    split; [intros H; contradiction | reflexivity].
Qed.

Lemma read_swe_file_exact_witness :
  snd (read_swe_file Demo.mapped "sepl_18.swevid" 90 10)
  = Some {| src := 4096 + 90; len := 10 |}
  /\ in_region Demo.mapped {| src := 4096 + 90; len := 10 |}.
Proof.
  apply (proj1 (proj2 (@read_swe_file_exact Demo.mapped 4096 "sepl_18.swevid" 90 10
                         eq_refl
                         ltac:(cbn; unfold size_t_max;
                               change (2 ^ 64) with 18446744073709551616; lia)
                         ltac:(unfold is_int; change (2 ^ 31) with 2147483648; lia)
                         ltac:(unfold is_int; change (2 ^ 31) with 2147483648; lia)
                         ltac:(lia) ltac:(lia)))).
  - exists "sepl_18"%string. reflexivity.
  - cbn. lia.
Defined.

(** X24. A [load_swevid] that maps the file makes it readable: it
    returns true, and from then on every range of the file, under any
    name that ends in ".swevid", is copied from the mapping. *)
Theorem load_swevid_then_read (fs : string -> file_status) (path : string)
        (ld : loader) (st_size addr : Z) (fname : string) (offset length : Z) :
  fs path = Mapped st_size addr ->
  0 < addr -> 0 <= st_size -> addr + st_size < size_t_max ->
  ends_in_swevid fname ->
  is_int offset -> is_int length ->
  0 <= offset -> 0 <= length -> offset + length <= st_size ->
  fst (load_swevid fs path ld) = true
  /\ swevid_size (snd (load_swevid fs path ld)) = st_size
  /\ read_swe_file (snd (load_swevid fs path ld)) fname offset length
     = (0, Some {| src := addr + offset; len := length |}).
Proof.
  intros Hfs Haddr Hsize Hfit Hname Hio Hil Ho Hl Hrange.
  unfold load_swevid. rewrite Hfs. cbn [fst snd].
  assert (Hnz : (addr =? 0) = false) by (apply Z.eqb_neq; lia).
  rewrite Hnz.
  assert (Hsz : to_size_t st_size = st_size).
  { unfold to_size_t. apply Z.mod_small. lia. }
  rewrite Hsz. split; [reflexivity | split; [reflexivity |]].
  apply has_swevid_extension_spec in Hname.
  assert (Hmap : well_mapped {| swevid_data := Some addr; swevid_size := st_size |}).
  { unfold well_mapped. cbn [swevid_data swevid_size]. split; [| split]; assumption. }
  destruct (@LoaderProperties.read_swe_file_nonnegative
              {| swevid_data := Some addr; swevid_size := st_size |}
              addr fname offset length eq_refl Hmap Hname Hio Hil Ho Hl)
    as [Hin _].
  exact (proj1 (Hin Hrange)).
Qed.

Lemma load_swevid_then_read_witness :
  fst (load_swevid Sample.files "sepl_18.swevid" unloaded) = true
  /\ swevid_size (snd (load_swevid Sample.files "sepl_18.swevid" unloaded)) = 100
  /\ read_swe_file (snd (load_swevid Sample.files "sepl_18.swevid" unloaded))
                   "other.swevid" 0 100
     = (0, Some {| src := 4096 + 0; len := 100 |}).
Proof.
  apply (@load_swevid_then_read Sample.files "sepl_18.swevid" unloaded 100 4096
           "other.swevid" 0 100).
  - reflexivity.
  - lia.
  - lia.
  - unfold size_t_max. change (2 ^ 64) with 18446744073709551616. lia.
  - exists "other"%string. reflexivity.
  - unfold is_int. change (2 ^ 31) with 2147483648. lia.
  - unfold is_int. change (2 ^ 31) with 2147483648. lia.
  - lia.
  - lia.
  - lia.
Defined.

(** X25. A [load_swevid] that fails returns false. When the file cannot
    be opened or its size cannot be read, the globals are untouched, so
    a file loaded before is still served; when the mapping fails, the
    size of the new file is kept but the address is reset, so every
    later read is refused with -1, a file loaded before included. *)
Theorem load_swevid_failure (fs : string -> file_status) (path : string)
        (ld : loader) (fname : string) (offset length : Z) :
  (fs path = OpenFails \/ fs path = StatFails ->
   load_swevid fs path ld = (false, ld))
  /\ (forall st_size,
         fs path = MapFails st_size ->
         fst (load_swevid fs path ld) = false
         /\ swevid_size (snd (load_swevid fs path ld)) = to_size_t st_size
         /\ read_swe_file (snd (load_swevid fs path ld)) fname offset length
            = (-1, None)).
Proof.
  unfold load_swevid. split.
  - intros [-> | ->]; reflexivity.
  - intros st_size ->. cbn. repeat split.
Qed.

Lemma load_swevid_failure_witness :
  load_swevid Sample.files "missing.swevid" Demo.mapped = (false, Demo.mapped)
  /\ read_swe_file (snd (load_swevid Sample.files "empty.swevid" Demo.mapped))
                   "sepl_18.swevid" 0 10
     = (-1, None).
Proof.
  destruct (@load_swevid_failure Sample.files "missing.swevid" Demo.mapped
              "sepl_18.swevid" 0 10) as [Hopen _].
  destruct (@load_swevid_failure Sample.files "empty.swevid" Demo.mapped
              "sepl_18.swevid" 0 10) as [_ Hmap].
  split.
  - apply Hopen. left. reflexivity.
  - apply (Hmap 0). reflexivity.
Defined.

End LoaderFurther.

(** ** The tasks of a tuning trial *)

Lemma full_but_last_upper {A} (step : nat) (slices : list (list A)) :
  full_but_last step slices -> length (concat slices) <= step * length slices.
Proof.
  induction slices as [| s rest IH]; intros Hfull; [cbn; lia |].
  cbn [concat length]. rewrite length_app. cbn [full_but_last] in Hfull.
  destruct rest as [| r rest'].
  - cbn. lia.
  - destruct Hfull as [Hs Hrest]. specialize (IH Hrest). cbn [length] in *. nia.
Qed.

(** X26. A tuning trial with t threads, t not 0, runs the whole
    workload once: its tasks are contiguous slices whose concatenation
    is the workload. There are at least t of them when the workload has
    at least t requests, and one per request when it has fewer. *)
Theorem trial_slices_cover {A} (workload : list A) (threads : nat) :
  0 < threads ->
  exists slices,
    trial_slices workload threads = Some slices
    /\ concat slices = workload
    /\ full_but_last (Nat.max 1 (length workload / threads)) slices
    /\ (threads <= length workload -> threads <= length slices)
    /\ (length workload < threads -> length slices = length workload).
Proof.
  intros Hthreads. unfold trial_slices.
  assert (Hnz : (threads =? 0) = false) by (apply Nat.eqb_neq; lia).
  rewrite Hnz.
  set (step := Nat.max 1 (length workload / threads)).
  assert (Hstep : 0 < step) by (subst step; lia).
  destruct (@slice_loop_spec _ (S (length workload)) workload step Hstep 0 ltac:(lia))
    as (slices & Heq & Hcat & Hfull & _).
  exists slices. cbn [skipn] in Hcat.
  split; [exact Heq | split; [exact Hcat | split; [exact Hfull | split]]].
  - intros Hmany. pose proof (full_but_last_upper step slices Hfull) as Hup.
    rewrite Hcat in Hup.
    assert (Hdiv : threads * (length workload / threads) <= length workload)
      by (apply Nat.Div0.mul_div_le).
    assert (Hone : 1 <= length workload / threads).
    { apply Nat.div_le_lower_bound; lia. }
    assert (Hs : step = length workload / threads) by (subst step; lia).
    rewrite Hs in Hup. nia.
  - intros Hfew.
    assert (Hs : step = 1).
    { subst step. rewrite Nat.div_small by exact Hfew. reflexivity. }
    rewrite (full_but_last_count (step := step) slices Hstep Hfull), Hcat, Hs.
    rewrite Nat.div_1_r. lia.
Qed.

Lemma trial_slices_cover_witness :
  exists slices,
    trial_slices (Demo.batch 10) 3 = Some slices
    /\ concat slices = Demo.batch 10
    /\ full_but_last (Nat.max 1 (length (Demo.batch 10) / 3)) slices
    /\ (3 <= length (Demo.batch 10) -> 3 <= length slices)
    /\ (length (Demo.batch 10) < 3 -> length slices = length (Demo.batch 10)).
Proof.
  apply (@trial_slices_cover _ (Demo.batch 10) 3). lia.
Defined.
